(** * Voice over IP pipeline bridge (homeassistant/components/voip/voip.py)

    A shallow embedding of [PipelineRtpDatagramProtocol]: the utterance
    extractor [_segment_audio] with its bounded look-back deque, and the
    per-call supervisor ([on_chunk], [_run_pipeline], [_event_callback],
    [_send_media]) as handlers over an explicit session state. *)

From Stdlib Require Import String.
From Stdlib Require Import List Bool Arith ZArith Lia.
From Stdlib.Strings Require Import Byte.
Import ListNotations.

Set Implicit Arguments.

(** Raw audio is Python [bytes]. *)
Definition bytes := list byte.

(** Truth value of a [bytes] object: only [b""] is falsy. *)
Definition truthy (b : bytes) : bool :=
  match b with
  | [] => false
  | _ :: _ => true
  end.

(** voip.py line 31. *)
Definition _BUFFERED_CHUNKS_BEFORE_SPEECH : nat := 100.

(** ** collections.deque with a maximum length *)

Module Deque.

Record deque (A : Type) : Type := mk { maxlen : nat; items : list A }.

Arguments mk {A} maxlen items.

(** [deque(maxlen=n)] *)
Definition make {A} (n : nat) : deque A := mk n [].

(** [len(d)] *)
Definition len {A} (d : deque A) : nat := length (items d).

(** [bool(d)] *)
Definition nonempty {A} (d : deque A) : bool :=
  match items d with
  | [] => false
  | _ :: _ => true
  end.

(** [d.append(x)]: the item is added on the right; a deque that has
    grown past [maxlen] then drops its leftmost item. *)
Definition append {A} (d : deque A) (x : A) : deque A :=
  let grown := items d ++ [x] in
  if maxlen d <? length grown
  then mk (maxlen d) (tl grown)
  else mk (maxlen d) grown.

(** [d.clear()] *)
Definition clear {A} (d : deque A) : deque A := mk (maxlen d) [].

(** The deque after appending a whole sequence, left to right. *)
Definition extend {A} (d : deque A) (xs : list A) : deque A :=
  fold_left append xs d.

Definition bounded {A} (d : deque A) : Prop := len d <= maxlen d.

End Deque.

Import Deque.

(** ** The voice command segmenter

    [VoiceCommandSegmenter] lives in assist_pipeline.vad; the extractor only
    constructs it, calls [process] and reads [in_command].  It is taken as an
    interface: any state type with these three operations. *)

Class VoiceCommandSegmenter : Type := {
  segmenter : Type;
  (** [VoiceCommandSegmenter()] *)
  new_segmenter : segmenter;
  (** [segmenter.process(chunk)]: the returned flag and the updated object *)
  process : segmenter -> bytes -> bool * segmenter;
  (** [segmenter.in_command] *)
  in_command : segmenter -> bool
}.

(** ** _segment_audio *)

Module Extractor.

Section WithSegmenter.

Context {VAD : VoiceCommandSegmenter}.

(** Local variables of the generator that live across iterations. *)
Record Loop : Type := {
  seg : segmenter;
  chunk_buffer : deque bytes
}.

(** How the generator stops producing. *)
Inductive Exit : Type :=
| CommandFinished   (* [break]: process returned False *)
| FalsyChunk        (* the [while chunk:] test failed *)
| AudioTimeout.     (* [queue.get()] raised TimeoutError *)

Inductive Iteration : Type :=
| Continues (l : Loop) (out : list bytes)
| LoopEnds (why : Exit).

(** The test and body of the [while chunk:] loop (lines 173-189) for one
    dequeued chunk; [out] lists the chunks yielded, in order. *)
Definition iteration (l : Loop) (chunk : bytes) : Iteration :=
  if truthy chunk then
    let (still_active, seg') := process (seg l) chunk in
    if negb still_active then LoopEnds CommandFinished
    else if in_command seg' then
      if nonempty (chunk_buffer l)
      then Continues {| seg := seg'; chunk_buffer := clear (chunk_buffer l) |}
                     (items (chunk_buffer l) ++ [chunk])
      else Continues {| seg := seg'; chunk_buffer := chunk_buffer l |} [chunk]
    else
      Continues {| seg := seg'; chunk_buffer := append (chunk_buffer l) chunk |} []
  else LoopEnds FalsyChunk.

(** What one run of the generator did: the chunks it yielded, why it
    stopped, and the dequeued chunks it never looked at. *)
Record Utterance : Type := {
  yielded : list bytes;
  exit : Exit;
  unread : list bytes
}.

(** The loop over the sequence of chunks that [queue.get()] delivers;
    when the sequence is exhausted the next [get()] times out
    (lines 170-171 and 191-192). *)
Fixpoint segment_loop (l : Loop) (dequeued : list bytes) : Utterance :=
  match dequeued with
  | [] => {| yielded := []; exit := AudioTimeout; unread := [] |}
  | chunk :: rest =>
      match iteration l chunk with
      | LoopEnds why => {| yielded := []; exit := why; unread := rest |}
      | Continues l' out =>
          let u := segment_loop l' rest in
          {| yielded := out ++ yielded u; exit := exit u; unread := unread u |}
      end
  end.

(** Lines 165-166. *)
Definition initial : Loop :=
  {| seg := new_segmenter;
     chunk_buffer := make _BUFFERED_CHUNKS_BEFORE_SPEECH |}.

Definition _segment_audio (dequeued : list bytes) : Utterance :=
  segment_loop initial dequeued.

(** The loop state at the head of the next iteration once the given
    chunks went through the loop, if it is still running then. *)
Fixpoint advance (l : Loop) (dequeued : list bytes) : option Loop :=
  match dequeued with
  | [] => Some l
  | chunk :: rest =>
      match iteration l chunk with
      | Continues l' _ => advance l' rest
      | LoopEnds _ => None
      end
  end.

(** What the segmenter told the loop about one chunk. *)
Inductive Report : Type :=
| Ended
| Active (in_cmd : bool).

(** The segmenter's answers during a run, one per chunk it was fed. *)
Fixpoint reports_from (l : Loop) (dequeued : list bytes) : list Report :=
  match dequeued with
  | [] => []
  | chunk :: rest =>
      match iteration l chunk with
      | LoopEnds CommandFinished => [Ended]
      | LoopEnds _ => []
      | Continues l' _ => Active (in_command (seg l')) :: reports_from l' rest
      end
  end.

Definition reports (dequeued : list bytes) : list Report :=
  reports_from initial dequeued.

(** The segmenter after it was fed a sequence of chunks. *)
Definition feed (s : segmenter) (chunks : list bytes) : segmenter :=
  fold_left (fun s c => snd (process s c)) chunks s.

(** A chunk on which the loop keeps going: it is not empty and the
    segmenter does not signal the end of the command. *)
Definition keeps_going (s : segmenter) (chunk : bytes) : bool :=
  truthy chunk && fst (process s chunk).

Fixpoint all_keep_going (s : segmenter) (chunks : list bytes) : bool :=
  match chunks with
  | [] => true
  | c :: rest => keeps_going s c && all_keep_going (snd (process s c)) rest
  end.

(** The segmenter's answer to a chunk is "go on" and "not in a
    command", for every chunk of a sequence fed to it in order. *)
Fixpoint never_in_command (s : segmenter) (chunks : list bytes) : bool :=
  match chunks with
  | [] => true
  | c :: rest =>
      fst (process s c) && negb (in_command (snd (process s c)))
      && never_in_command (snd (process s c)) rest
  end.

(** A chunk heard before speech: the loop keeps going and the segmenter
    is not in a command after it. *)
Fixpoint all_pre_speech (s : segmenter) (chunks : list bytes) : bool :=
  match chunks with
  | [] => true
  | c :: rest =>
      keeps_going s c && negb (in_command (snd (process s c)))
      && all_pre_speech (snd (process s c)) rest
  end.

(** Every chunk of a sequence keeps the loop going and leaves the
    segmenter in a command. *)
Fixpoint all_in_command (s : segmenter) (chunks : list bytes) : bool :=
  match chunks with
  | [] => true
  | c :: rest =>
      keeps_going s c && in_command (snd (process s c))
      && all_in_command (snd (process s c)) rest
  end.

End WithSegmenter.

(** [xs] is [ys] with some elements left out, the others in place. *)
Inductive subsequence {A : Type} : list A -> list A -> Prop :=
| subsequence_nil : subsequence [] []
| subsequence_skip (y : A) (xs ys : list A) :
    subsequence xs ys -> subsequence xs (y :: ys)
| subsequence_keep (x : A) (xs ys : list A) :
    subsequence xs ys -> subsequence (x :: xs) (x :: ys).

End Extractor.

(** ** The call session: PipelineRtpDatagramProtocol and its event loop *)

Module Session.

(** Python values that occur in the payload of a pipeline event. *)
#[local] Set Warnings "-register-all".
Inductive Value : Type :=
| VNone
| VStr (s : string)
| VDict (entries : list (string * Value)).

Definition Dict : Type := list (string * Value).

Inductive Exn : Type :=
| TimeoutError
| KeyError (key : string)
| TypeError
| EngineError (msg : string).

Inductive Result (A : Type) : Type :=
| Ok (a : A)
| Raise (e : Exn).

Arguments Ok {A} a.
Arguments Raise {A} e.

Fixpoint dict_get (d : Dict) (key : string) : option Value :=
  match d with
  | [] => None
  | (k, v) :: rest => if String.eqb k key then Some v else dict_get rest key
  end.

(** [v[key]] *)
Definition getitem (v : Value) (key : string) : Result Value :=
  match v with
  | VDict d =>
      match dict_get d key with
      | Some x => Ok x
      | None => Raise (KeyError key)
      end
  | _ => Raise TypeError
  end.

(** Modelled from the spec: [PipelineEventType] is declared in
    assist_pipeline, outside the sources at hand; the callback tells
    [INTENT_END] and [TTS_END] apart from every other member. *)
Inductive PipelineEventType : Type :=
| INTENT_END
| TTS_END
| OTHER_EVENT (name : string).

(** [PipelineEvent]: [data] is a dict or [None]. *)
Record PipelineEvent : Type := {
  type : PipelineEventType;
  data : option Dict
}.

(** [not event.data]: [None] and the empty dict are falsy. *)
Definition no_data (e : PipelineEvent) : bool :=
  match data e with
  | None => true
  | Some [] => true
  | Some (_ :: _) => false
  end.

Definition Transport : Type := nat.
Definition TaskId : Type := nat.

(** Where a background task created by the protocol stands. *)
Inductive TaskState : Type :=
| RunScheduled                       (* _run_pipeline() not yet entered *)
| RunAwaitsPipeline                  (* inside async_pipeline_from_audio_stream *)
| SendScheduled (media_id : Value)   (* _send_media(media_id) not yet entered *)
| SendAwaitsMedia (media_id : Value) (* inside tts.async_get_media_source_audio *).

Definition is_run (st : TaskState) : bool :=
  match st with
  | RunScheduled | RunAwaitsPipeline => true
  | _ => false
  end.

(** Calls that leave the protocol object.  Debug logging is left out.  Of
    the arguments of the pipeline call only the conversation id and the
    audio format are kept. *)
Inductive Action : Type :=
| CreateBackgroundTask (id : TaskId) (name : string)
| TransportClose (t : Transport)
| PipelineFromAudioStream (conversation_id : Value)
                          (sample_rate bit_rate channel : Z)
| GetMediaSourceAudio (media_id : Value)
| SendAudio (audio : bytes) (rate width channels : Z).

(** The protocol object and its surroundings.  The attributes [hass],
    [language], [voip_device] and [pipeline] are handles that the handlers
    only pass on; of the device only its active flag is kept. *)
Record World : Type := {
  (* attributes of the protocol object *)
  transport : option Transport;
  pipeline_timeout : nat;             (* seconds *)
  audio_timeout : nat;                (* seconds *)
  _audio_queue : list bytes;          (* oldest first *)
  _pipeline_task : option TaskId;
  _conversation_id : Value;
  (* the surroundings *)
  device_active : bool;
  tasks : list (TaskId * TaskState);  (* created and not yet finished *)
  next_task : TaskId;
  actions : list Action               (* oldest first *)
}.

Definition set_transport (t : option Transport) (w : World) : World :=
  {| transport := t; pipeline_timeout := pipeline_timeout w;
     audio_timeout := audio_timeout w; _audio_queue := _audio_queue w;
     _pipeline_task := _pipeline_task w;
     _conversation_id := _conversation_id w;
     device_active := device_active w; tasks := tasks w;
     next_task := next_task w; actions := actions w |}.

Definition set_audio_queue (q : list bytes) (w : World) : World :=
  {| transport := transport w; pipeline_timeout := pipeline_timeout w;
     audio_timeout := audio_timeout w; _audio_queue := q;
     _pipeline_task := _pipeline_task w;
     _conversation_id := _conversation_id w;
     device_active := device_active w; tasks := tasks w;
     next_task := next_task w; actions := actions w |}.

Definition set_pipeline_task (t : option TaskId) (w : World) : World :=
  {| transport := transport w; pipeline_timeout := pipeline_timeout w;
     audio_timeout := audio_timeout w; _audio_queue := _audio_queue w;
     _pipeline_task := t;
     _conversation_id := _conversation_id w;
     device_active := device_active w; tasks := tasks w;
     next_task := next_task w; actions := actions w |}.

Definition set_conversation_id (c : Value) (w : World) : World :=
  {| transport := transport w; pipeline_timeout := pipeline_timeout w;
     audio_timeout := audio_timeout w; _audio_queue := _audio_queue w;
     _pipeline_task := _pipeline_task w;
     _conversation_id := c;
     device_active := device_active w; tasks := tasks w;
     next_task := next_task w; actions := actions w |}.

Definition set_device_active (b : bool) (w : World) : World :=
  {| transport := transport w; pipeline_timeout := pipeline_timeout w;
     audio_timeout := audio_timeout w; _audio_queue := _audio_queue w;
     _pipeline_task := _pipeline_task w;
     _conversation_id := _conversation_id w;
     device_active := b; tasks := tasks w;
     next_task := next_task w; actions := actions w |}.

Definition set_tasks (ts : list (TaskId * TaskState)) (w : World) : World :=
  {| transport := transport w; pipeline_timeout := pipeline_timeout w;
     audio_timeout := audio_timeout w; _audio_queue := _audio_queue w;
     _pipeline_task := _pipeline_task w;
     _conversation_id := _conversation_id w;
     device_active := device_active w; tasks := ts;
     next_task := next_task w; actions := actions w |}.

Definition set_next_task (n : TaskId) (w : World) : World :=
  {| transport := transport w; pipeline_timeout := pipeline_timeout w;
     audio_timeout := audio_timeout w; _audio_queue := _audio_queue w;
     _pipeline_task := _pipeline_task w;
     _conversation_id := _conversation_id w;
     device_active := device_active w; tasks := tasks w;
     next_task := n; actions := actions w |}.

Definition record (a : Action) (w : World) : World :=
  {| transport := transport w; pipeline_timeout := pipeline_timeout w;
     audio_timeout := audio_timeout w; _audio_queue := _audio_queue w;
     _pipeline_task := _pipeline_task w;
     _conversation_id := _conversation_id w;
     device_active := device_active w; tasks := tasks w;
     next_task := next_task w; actions := actions w ++ [a] |}.

(** *** Handlers run in a state monad with exceptions; a raised exception
    keeps the state reached so far. *)

Definition M (A : Type) : Type := World -> Result A * World.

Definition ret {A} (a : A) : M A := fun w => (Ok a, w).

Definition bind {A B} (m : M A) (k : A -> M B) : M B :=
  fun w =>
    match m w with
    | (Ok a, w') => k a w'
    | (Raise e, w') => (Raise e, w')
    end.

Notation "x <- m ;; k" := (bind m (fun x => k))
  (at level 61, m at next level, right associativity).
Notation "m ;; k" := (bind m (fun _ => k))
  (at level 61, right associativity).

Definition raise {A} (e : Exn) : M A := fun w => (Raise e, w).
Definition gets {A} (f : World -> A) : M A := fun w => (Ok (f w), w).
Definition modify (f : World -> World) : M unit := fun w => (Ok tt, f w).
Definition lift {A} (r : Result A) : M A := fun w => (r, w).

(** [try: body / except asyncio.TimeoutError: handler] *)
Definition try_except_timeout {A} (body handler : M A) : M A :=
  fun w =>
    match body w with
    | (Raise TimeoutError, w') => handler w'
    | other => other
    end.

(** [try: body / finally: final] *)
Definition try_finally {A} (body : M A) (final : M unit) : M A :=
  fun w =>
    let (r, w') := body w in
    match final w' with
    | (Ok _, w'') => (r, w'')
    | (Raise e, w'') => (Raise e, w'')
    end.

(** [hass.async_create_background_task(coro, name)] *)
Definition async_create_background_task (st : TaskState) (name : string)
  : M TaskId :=
  id <- gets next_task ;;
  modify (fun w => set_tasks (tasks w ++ [(id, st)]) w) ;;
  modify (set_next_task (S id)) ;;
  modify (record (CreateBackgroundTask id name)) ;;
  ret id.

(** Lines 194-196: [get_nowait()] until the queue is empty. *)
Fixpoint drain (q : list bytes) : list bytes :=
  match q with
  | [] => []
  | _ :: rest => drain rest
  end.

Definition _clear_audio_queue : M unit :=
  modify (fun w => set_audio_queue (drain (_audio_queue w)) w).

(** [self._audio_queue.put_nowait(audio_bytes)]; the queue has no bound. *)
Definition put_nowait (audio_bytes : bytes) : M unit :=
  modify (fun w => set_audio_queue (_audio_queue w ++ [audio_bytes]) w).

(** Lines 65-86; the base class starts without a transport. *)
Definition __init__ : World :=
  {| transport := None; pipeline_timeout := 30; audio_timeout := 2;
     _audio_queue := []; _pipeline_task := None;
     _conversation_id := VNone;
     device_active := false; tasks := []; next_task := 0; actions := [] |}.

(** Lines 88-96; the base class keeps the transport it is given. *)
Definition connection_made (t : Transport) : M unit :=
  modify (set_transport (Some t)) ;;
  modify (set_device_active true).

Definition connection_lost : M unit :=
  modify (set_device_active false).

(** Lines 98-109. *)
Definition on_chunk (audio_bytes : bytes) : M unit :=
  task <- gets _pipeline_task ;;
  match task with
  | None =>
      _clear_audio_queue ;;
      id <- async_create_background_task RunScheduled "voip_pipeline_run" ;;
      modify (set_pipeline_task (Some id))
  | Some _ => ret tt
  end ;;
  put_nowait audio_bytes.

(** Lines 125-127 and 157-159. *)
Definition close_transport : M unit :=
  t <- gets transport ;;
  match t with
  | Some tr =>
      modify (record (TransportClose tr)) ;;
      modify (set_transport None)
  | None => ret tt
  end.

(** [_run_pipeline] up to the point where it awaits the pipeline
    (lines 131-151). *)
Definition _run_pipeline_enter : M unit :=
  cid <- gets _conversation_id ;;
  modify (record (PipelineFromAudioStream cid 16000 16 1)%Z).

(** [_run_pipeline] from the point where the awaited pipeline returns,
    raises, or is cut off by the timeout (lines 131-162). *)
Definition _run_pipeline_leave (awaited : Result unit) : M unit :=
  try_finally
    (try_except_timeout (lift awaited) close_transport)
    (modify (set_pipeline_task None)).

(** [stt_stream] from the point where [_segment_audio] is exhausted or
    raises (lines 118-129). *)
Definition stt_stream_leave (segmented : Result unit) : M unit :=
  try_finally
    (try_except_timeout (lift segmented) close_transport)
    _clear_audio_queue.

(** [await self._audio_queue.get()] when a chunk is waiting. *)
Definition queue_get : M (option bytes) :=
  q <- gets _audio_queue ;;
  match q with
  | [] => ret None
  | chunk :: rest => modify (set_audio_queue rest) ;; ret (Some chunk)
  end.

(** Lines 198-211. *)
Definition _event_callback (event : PipelineEvent) : M unit :=
  if no_data event then ret tt
  else
    let payload := match data event with Some d => VDict d | None => VNone end in
    match type event with
    | INTENT_END =>
        intent_output <- lift (getitem payload "intent_output") ;;
        cid <- lift (getitem intent_output "conversation_id") ;;
        modify (set_conversation_id cid)
    | TTS_END =>
        tts_output <- lift (getitem payload "tts_output") ;;
        media_id <- lift (getitem tts_output "media_id") ;;
        _ <- async_create_background_task (SendScheduled media_id)
               "voip_pipeline_tts" ;;
        ret tt
    | OTHER_EVENT _ => ret tt
    end.

(** [_send_media] runs in two stretches, split at the await of the media
    source (lines 213-226). *)
Inductive SendStage : Type :=
| SendReturned
| SendAwaits (media_id : Value).

Definition _send_media_enter (media_id : Value) : M SendStage :=
  t <- gets transport ;;
  match t with
  | None => ret SendReturned
  | Some _ =>
      modify (record (GetMediaSourceAudio media_id)) ;;
      ret (SendAwaits media_id)
  end.

Definition _send_media_resume (resolved : Result (string * bytes)) : M unit :=
  media <- lift resolved ;;
  let (_extension, audio_bytes) := media in
  modify (record (SendAudio audio_bytes 16000 2 1)%Z).

(** *** The event loop

    What can happen to a session, one step at a time: the transport or
    the pipeline engine calls into the protocol, or the event loop runs a
    background task up to its next await.  Results of awaited outside
    calls come with the step. *)
Inductive Step : Type :=
| ConnectionMade (t : Transport)
| ConnectionLost
| Chunk (audio_bytes : bytes)
| RunEnters (id : TaskId)
| QueueGet
| StreamLeaves (segmented : Result unit)
| Event (event : PipelineEvent)
| RunLeaves (id : TaskId) (awaited : Result unit)
| SendEnters (id : TaskId)
| SendResumes (id : TaskId) (resolved : Result (string * bytes)).

Fixpoint task_state (ts : list (TaskId * TaskState)) (id : TaskId)
  : option TaskState :=
  match ts with
  | [] => None
  | (i, st) :: rest => if Nat.eqb i id then Some st else task_state rest id
  end.

Fixpoint task_update (ts : list (TaskId * TaskState)) (id : TaskId)
    (st : TaskState) : list (TaskId * TaskState) :=
  match ts with
  | [] => []
  | (i, old) :: rest =>
      if Nat.eqb i id then (i, st) :: rest
      else (i, old) :: task_update rest id st
  end.

Fixpoint task_remove (ts : list (TaskId * TaskState)) (id : TaskId)
  : list (TaskId * TaskState) :=
  match ts with
  | [] => []
  | (i, old) :: rest =>
      if Nat.eqb i id then rest else (i, old) :: task_remove rest id
  end.

Definition suspend (id : TaskId) (st : TaskState) (w : World) : World :=
  set_tasks (task_update (tasks w) id st) w.

Definition finish (id : TaskId) (w : World) : World :=
  set_tasks (task_remove (tasks w) id) w.

Definition awaiting_run (w : World) : bool :=
  existsb (fun t => match snd t with RunAwaitsPipeline => true | _ => false end)
          (tasks w).

(** The state after a step, or [None] when the step cannot happen in
    this state.  An exception that escapes a handler goes to whoever
    called it; the state changes made before it stay. *)
Definition fire (s : Step) (w : World) : option World :=
  match s with
  | ConnectionMade t => Some (snd (connection_made t w))
  | ConnectionLost => Some (snd (connection_lost w))
  | Chunk audio_bytes => Some (snd (on_chunk audio_bytes w))
  | RunEnters id =>
      match task_state (tasks w) id with
      | Some RunScheduled =>
          Some (suspend id RunAwaitsPipeline (snd (_run_pipeline_enter w)))
      | _ => None
      end
  | QueueGet =>
      if awaiting_run w then
        match queue_get w with
        | (Ok (Some _), w') => Some w'
        | _ => None
        end
      else None
  | StreamLeaves segmented =>
      if awaiting_run w then Some (snd (stt_stream_leave segmented w))
      else None
  | Event event => Some (snd (_event_callback event w))
  | RunLeaves id awaited =>
      match task_state (tasks w) id with
      | Some RunAwaitsPipeline =>
          Some (finish id (snd (_run_pipeline_leave awaited w)))
      | _ => None
      end
  | SendEnters id =>
      match task_state (tasks w) id with
      | Some (SendScheduled media_id) =>
          match _send_media_enter media_id w with
          | (Ok (SendAwaits m), w') => Some (suspend id (SendAwaitsMedia m) w')
          | (_, w') => Some (finish id w')
          end
      | _ => None
      end
  | SendResumes id resolved =>
      match task_state (tasks w) id with
      | Some (SendAwaitsMedia _) =>
          Some (finish id (snd (_send_media_resume resolved w)))
      | _ => None
      end
  end.

Fixpoint run (steps : list Step) (w : World) : option World :=
  match steps with
  | [] => Some w
  | s :: rest =>
      match fire s w with
      | Some w' => run rest w'
      | None => None
      end
  end.

(** The pipeline runs that are alive: created and not yet finished. *)
Definition runs (ts : list (TaskId * TaskState)) : list TaskId :=
  map fst (filter (fun t => is_run (snd t)) ts).

Definition active_runs (w : World) : list TaskId := runs (tasks w).

(** The run-slot names the one live pipeline run, or is empty when there
    is none. *)
Definition slot_tracks_runs (w : World) : Prop :=
  active_runs w
  = match _pipeline_task w with Some id => [id] | None => [] end.

(** The state a sequence of steps leads to from a fresh protocol object
    (the fresh object itself when a step cannot happen). *)
Definition after (steps : list Step) : World :=
  match run steps __init__ with
  | Some w => w
  | None => __init__
  end.

(** The conversation id an event hands over: that of an [INTENT_END]
    event whose payload has one. *)
Definition carried_conversation_id (event : PipelineEvent) : option Value :=
  match type event, data event with
  | INTENT_END, Some ((_ :: _) as d) =>
      match dict_get d "intent_output" with
      | Some (VDict intent_output) => dict_get intent_output "conversation_id"
      | _ => None
      end
  | _, _ => None
  end.

(** The media id of a [TTS_END] event whose payload has one. *)
Definition tts_media_id (event : PipelineEvent) : option Value :=
  match type event, data event with
  | TTS_END, Some ((_ :: _) as d) =>
      match dict_get d "tts_output" with
      | Some (VDict tts_output) => dict_get tts_output "media_id"
      | _ => None
      end
  | _, _ => None
  end.

(** The conversation id handed over by the last event that had one,
    starting from [current]. *)
Definition latest_from (current : Value) (steps : list Step) : Value :=
  fold_left
    (fun cur s =>
       match s with
       | Event event =>
           match carried_conversation_id event with
           | Some c => c
           | None => cur
           end
       | _ => cur
       end)
    steps current.

Definition latest_conversation_id (steps : list Step) : Value :=
  latest_from VNone steps.

Definition intent_end (conversation_id : string) : PipelineEvent :=
  {| type := INTENT_END;
     data := Some [("intent_output"%string,
                    VDict [("conversation_id"%string, VStr conversation_id)])] |}.

Definition tts_end (media_id : string) : PipelineEvent :=
  {| type := TTS_END;
     data := Some [("tts_output"%string,
                    VDict [("media_id"%string, VStr media_id)])] |}.

(** The conversation ids passed to the pipeline, oldest first. *)
Fixpoint conversation_ids_passed (acts : list Action) : list Value :=
  match acts with
  | [] => []
  | PipelineFromAudioStream cid _ _ _ :: rest =>
      cid :: conversation_ids_passed rest
  | _ :: rest => conversation_ids_passed rest
  end.

Fixpoint closes (acts : list Action) : list Transport :=
  match acts with
  | [] => []
  | TransportClose t :: rest => t :: closes rest
  | _ :: rest => closes rest
  end.

(** The transports handed over by [connection_made], oldest first. *)
Fixpoint connections (steps : list Step) : list Transport :=
  match steps with
  | [] => []
  | ConnectionMade t :: rest => t :: connections rest
  | _ :: rest => connections rest
  end.

(** The media ids that TTS_END events brought, oldest first. *)
Fixpoint announced_media (steps : list Step) : list Value :=
  match steps with
  | [] => []
  | Event event :: rest =>
      match tts_media_id event with
      | Some m => m :: announced_media rest
      | None => announced_media rest
      end
  | _ :: rest => announced_media rest
  end.

(** The media ids whose audio was asked for, oldest first. *)
Fixpoint media_requested (acts : list Action) : list Value :=
  match acts with
  | [] => []
  | GetMediaSourceAudio m :: rest => m :: media_requested rest
  | _ :: rest => media_requested rest
  end.

(** The media id a sender task is for. *)
Definition media_of (st : TaskState) : option Value :=
  match st with
  | SendScheduled m | SendAwaitsMedia m => Some m
  | _ => None
  end.

(** Task ids handed out so far lie below the next one. *)
Definition ids_below_next (w : World) : Prop :=
  forall id st, In (id, st) (tasks w) -> id < next_task w.

Definition open_transport (w : World) : list Transport :=
  match transport w with
  | Some t => [t]
  | None => []
  end.

(** The transports closed so far, then the one still held, were handed
    over by [connection_made] in that order. *)
Definition closes_follow_connections (steps : list Step) (w : World) : Prop :=
  Extractor.subsequence (closes (actions w) ++ open_transport w) (connections steps).

(** Every sender task, and every request for audio made so far, is for a
    media id that a TTS_END event brought. *)
Definition media_were_announced (steps : list Step) (w : World) : Prop :=
  (forall id st m,
     In (id, st) (tasks w) -> media_of st = Some m ->
     In m (announced_media steps))
  /\ (forall m,
        In m (media_requested (actions w)) -> In m (announced_media steps)).

End Session.

(** ** A segmenter to run the extractor on

    A three-state segmenter in which a chunk counts as speech when its first
    byte is not zero: speech starts a command, the first chunk without
    speech after that ends it. *)

Module Demo.

Inductive State : Type := not_started | in_command_ | command_ended.

Definition speech (chunk : bytes) : bool :=
  match chunk with
  | x00 :: _ => false
  | [] => false
  | _ :: _ => true
  end.

Definition demo_process (s : State) (chunk : bytes) : bool * State :=
  match s with
  | not_started =>
      if speech chunk then (true, in_command_) else (true, not_started)
  | in_command_ =>
      if speech chunk then (true, in_command_) else (false, command_ended)
  | command_ended => (false, command_ended)
  end.

Definition demo : VoiceCommandSegmenter := {|
  segmenter := State;
  new_segmenter := not_started;
  process := demo_process;
  in_command := fun s => match s with in_command_ => true | _ => false end
|}.

(** A segmenter that never hears anything and never ends. *)
Definition deaf : VoiceCommandSegmenter := {|
  segmenter := unit;
  new_segmenter := tt;
  process := fun s _ => (true, s);
  in_command := fun _ => false
|}.

Definition quiet : bytes := [x00; x00].
Definition loud : bytes := [x7f; x01].

Definition two_quiet_then_speech : list bytes :=
  [[x00; x01]; [x00; x02]; [x11]; [x12]; [x00]; [x13]].

(** Five chunks before speech, ten of speech, one that ends the command. *)
Definition five_ten_end : list bytes :=
  [[x00; x01]; [x00; x02]; [x00; x03]; [x00; x04]; [x00; x05];
   [x01]; [x02]; [x03]; [x04]; [x05]; [x06]; [x07]; [x08]; [x09]; [x0a];
   [x00; x06]; [x0b]].

(** A call with three utterances whose intents come back with changing
    conversation ids. *)
Definition three_runs : list Session.Step :=
  [Session.ConnectionMade 7;
   Session.Chunk loud; Session.RunEnters 0;
   Session.Event (Session.intent_end "abc123");
   Session.RunLeaves 0 (Session.Ok tt);
   Session.Chunk loud; Session.RunEnters 1;
   Session.Event (Session.intent_end "xyz789");
   Session.RunLeaves 1 (Session.Ok tt);
   Session.Chunk loud].

(** A burst of chunks while a run is under way, then the run fails. *)
Definition burst : list Session.Step :=
  [Session.ConnectionMade 7;
   Session.Chunk quiet; Session.Chunk loud; Session.RunEnters 0;
   Session.Chunk loud; Session.QueueGet; Session.Chunk quiet;
   Session.Event (Session.tts_end "media-1");
   Session.RunLeaves 0 (Session.Raise (Session.EngineError "stt failed"));
   Session.Chunk loud].

(** More chunks before speech than the look-back deque holds. *)
Definition long_silence : list bytes := repeat quiet 103.

(** A call that was connected, served one utterance and heard an answer. *)
Definition served : list Session.Step :=
  [Session.ConnectionMade 7;
   Session.Chunk loud; Session.RunEnters 0;
   Session.Event (Session.intent_end "abc123");
   Session.Event (Session.tts_end "media-1");
   Session.RunLeaves 0 (Session.Ok tt);
   Session.SendEnters 1;
   Session.SendResumes 1 (Session.Ok ("raw"%string, loud))].

(** A caller who hangs up: the audio stream and then the run time out;
    later a new connection is made. *)
Definition hung_up : list Session.Step :=
  [Session.ConnectionMade 7;
   Session.Chunk quiet; Session.RunEnters 0; Session.QueueGet;
   Session.StreamLeaves (Session.Raise Session.TimeoutError);
   Session.RunLeaves 0 (Session.Raise Session.TimeoutError);
   Session.ConnectionMade 8; Session.Chunk loud].

End Demo.

(** ** The audio stream handed to the pipeline *)

Module Call.

Import Extractor Session.

Section WithSegmenter.

Context {VAD : VoiceCommandSegmenter}.


End WithSegmenter.

End Call.

(** * Properties *)

(** ** The bounded deque *)

Module DequeFacts.

Lemma maxlen_append {A} (d : deque A) (x : A) :
  maxlen (append d x) = maxlen d.
Proof. unfold append. now destruct (maxlen d <? _). Qed.

Lemma len_append_le {A} (d : deque A) (x : A) :
  bounded d -> bounded (append d x).
Proof.
  unfold bounded, len, append. intros Hb.
  destruct (Nat.ltb_spec (maxlen d) (length (items d ++ [x]))) as [Hlt | Hge];
    cbn [items maxlen].
  - destruct (items d) as [| a xs]; cbn in *; [lia |].
    rewrite length_app. cbn. lia.
  - exact Hge.
Qed.

Lemma append_room {A} (d : deque A) (x : A) :
  len d < maxlen d -> items (append d x) = items d ++ [x].
Proof.
  unfold len, append. intros Hlt.
  destruct (Nat.ltb_spec (maxlen d) (length (items d ++ [x]))) as [Hgt | Hle];
    [| reflexivity].
  rewrite length_app in Hgt. cbn in Hgt. lia.
Qed.

Lemma append_full {A} (d : deque A) (x : A) :
  maxlen d <= len d -> items (append d x) = tl (items d ++ [x]).
Proof.
  unfold len, append. intros Hfull.
  destruct (Nat.ltb_spec (maxlen d) (length (items d ++ [x]))) as [Hgt | Hle];
    [reflexivity |].
  rewrite length_app in Hle. cbn in Hle. lia.
Qed.

Lemma bounded_extend {A} (xs : list A) :
  forall d : deque A, bounded d ->
    bounded (extend d xs) /\ maxlen (extend d xs) = maxlen d.
Proof.
  unfold extend.
  induction xs as [| x xs IH]; intros d Hb; cbn [fold_left].
  - now split.
  - destruct (IH (append d x) (len_append_le x Hb)) as [Hb' Hm].
    split; [exact Hb' |]. now rewrite Hm, maxlen_append.
Qed.

(** A deque that starts within its bound holds, after any run of
    appends, the newest [maxlen] items of everything it was given. *)
Lemma items_extend {A} (ys : list A) :
  forall d : deque A, bounded d ->
    items (extend d ys)
    = skipn (length (items d ++ ys) - maxlen d) (items d ++ ys).
Proof.
  induction ys as [| y ys IH]; intros d Hb.
  - cbn. rewrite app_nil_r.
    unfold bounded, len in Hb.
    replace (length (items d) - maxlen d) with 0 by lia. reflexivity.
  - cbn [extend fold_left]. change (fold_left append ys (append d y))
      with (extend (append d y) ys).
    rewrite (IH (append d y) (len_append_le y Hb)), maxlen_append.
    unfold bounded, len in Hb.
    destruct (Nat.lt_ge_cases (length (items d)) (maxlen d)) as [Hroom | Hfull].
    + rewrite (append_room d y Hroom), <- app_assoc. reflexivity.
    + rewrite (append_full d y Hfull).
      destruct (items d) as [| a xs] eqn:Hitems.
      * cbn in Hfull. assert (Hz : maxlen d = 0) by lia. rewrite Hz.
        cbn [tl app]. rewrite !Nat.sub_0_r.
        rewrite (skipn_all ys). symmetry. apply (skipn_all (y :: ys)).
      * cbn [app tl length] in *.
        rewrite <- app_assoc. cbn [app].
        replace (S (length (xs ++ y :: ys)) - maxlen d)
          with (S (length (xs ++ y :: ys) - maxlen d)).
        -- reflexivity.
        -- rewrite length_app. cbn [length]. cbn [length] in Hfull. lia.
Qed.

End DequeFacts.

(** ** The utterance extractor *)

Module ExtractorFacts.

Import Extractor DequeFacts.

Section WithSegmenter.

Context {VAD : VoiceCommandSegmenter}.

(** The three ways through an iteration that keeps the loop running or
    ends it, read off the segmenter's answer. *)
Lemma iteration_cases (l : Loop) (chunk : bytes) :
  (chunk = [] /\ iteration l chunk = LoopEnds FalsyChunk)
  \/ (chunk <> [] /\ fst (process (seg l) chunk) = false
      /\ iteration l chunk = LoopEnds CommandFinished)
  \/ (chunk <> [] /\ fst (process (seg l) chunk) = true
      /\ in_command (snd (process (seg l) chunk)) = true
      /\ iteration l chunk
         = Continues {| seg := snd (process (seg l) chunk);
                        chunk_buffer :=
                          if nonempty (chunk_buffer l)
                          then clear (chunk_buffer l) else chunk_buffer l |}
                     (items (chunk_buffer l) ++ [chunk]))
  \/ (chunk <> [] /\ fst (process (seg l) chunk) = true
      /\ in_command (snd (process (seg l) chunk)) = false
      /\ iteration l chunk
         = Continues {| seg := snd (process (seg l) chunk);
                        chunk_buffer := append (chunk_buffer l) chunk |} []).
Proof.
  unfold iteration. destruct chunk as [| b chunk]; [now left | right].
  cbn [truthy].
  destruct (process (seg l) (b :: chunk)) as [ok s'] eqn:Hp. cbn [fst snd].
  destruct ok; cbn [negb].
  - right. destruct (in_command s') eqn:Hin.
    + left. repeat split; try discriminate.
      unfold nonempty. destruct (items (chunk_buffer l)); reflexivity.
    + right. repeat split; discriminate.
  - left. repeat split; discriminate.
Qed.

Lemma keeps_going_iteration (l : Loop) (chunk : bytes) :
  keeps_going (seg l) chunk = true ->
  exists l' out, iteration l chunk = Continues l' out
                 /\ seg l' = snd (process (seg l) chunk).
Proof.
  unfold keeps_going. intros H. apply andb_true_iff in H as [Ht Hp].
  destruct (iteration_cases l chunk)
    as [[E _] | [(_ & Hf & _) | [(_ & _ & _ & Hi) | (_ & _ & _ & Hi)]]].
  - subst chunk. discriminate.
  - congruence.
  - eexists _, _. split; [exact Hi | reflexivity].
  - eexists _, _. split; [exact Hi | reflexivity].
Qed.

Lemma stops_iteration (l : Loop) (chunk : bytes) :
  keeps_going (seg l) chunk = false ->
  iteration l chunk
  = LoopEnds (if truthy chunk then CommandFinished else FalsyChunk).
Proof.
  unfold keeps_going. intros H.
  destruct (iteration_cases l chunk)
    as [[E Hi] | [(Hne & Hf & Hi) | [(Hne & Hp & _) | (Hne & Hp & _)]]].
  - subst chunk. exact Hi.
  - destruct chunk; [congruence | exact Hi].
  - destruct chunk; [congruence |]. cbn in H. congruence.
  - destruct chunk; [congruence |]. cbn in H. congruence.
Qed.

(** While every chunk keeps the loop going, the run over a longer input
    is the run over the prefix followed by the run over the rest. *)
Lemma segment_loop_app (pre : list bytes) :
  forall (l : Loop) (rest : list bytes),
    all_keep_going (seg l) pre = true ->
    exists l',
      advance l pre = Some l'
      /\ seg l' = feed (seg l) pre
      /\ yielded (segment_loop l (pre ++ rest))
         = yielded (segment_loop l pre) ++ yielded (segment_loop l' rest)
      /\ exit (segment_loop l (pre ++ rest)) = exit (segment_loop l' rest)
      /\ unread (segment_loop l (pre ++ rest))
         = unread (segment_loop l' rest).
Proof.
  induction pre as [| c pre IH]; intros l rest Hall.
  - exists l. cbn. repeat split; reflexivity.
  - cbn [all_keep_going] in Hall. apply andb_true_iff in Hall as [Hc Hpre].
    destruct (keeps_going_iteration l c Hc) as (l1 & out & Hi & Hs).
    rewrite <- Hs in Hpre.
    destruct (IH l1 rest Hpre) as (l' & Hadv & Hseg & Hy & He & Hu).
    exists l'. cbn [app segment_loop advance feed fold_left].
    rewrite Hi. cbn [yielded exit unread].
    rewrite Hy, He, Hu, Hseg, Hs, app_assoc. repeat split; try reflexivity.
    exact Hadv.
Qed.

Lemma all_keep_going_timeout (dequeued : list bytes) (l : Loop) :
  all_keep_going (seg l) dequeued = true ->
  exit (segment_loop l dequeued) = AudioTimeout
  /\ unread (segment_loop l dequeued) = [].
Proof.
  intros Hall.
  destruct (segment_loop_app dequeued l [] Hall) as (l' & _ & _ & _ & He & Hu).
  rewrite app_nil_r in He, Hu. now rewrite He, Hu.
Qed.

(** Every input either keeps the loop going throughout, or has a first
    chunk on which the loop stops. *)
Lemma first_stop (dequeued : list bytes) :
  forall s : segmenter,
    all_keep_going s dequeued = true
    \/ exists pre c post,
         dequeued = pre ++ c :: post
         /\ all_keep_going s pre = true
         /\ keeps_going (feed s pre) c = false.
Proof.
  induction dequeued as [| c rest IH]; intros s; [now left |].
  destruct (keeps_going s c) eqn:Hc.
  - destruct (IH (snd (process s c))) as [Hall | (pre & c' & post & E & Hpre & Hstop)].
    + left. cbn. now rewrite Hc, Hall.
    + right. exists (c :: pre), c', post. cbn. rewrite Hc, Hpre, E.
      repeat split. exact Hstop.
  - right. exists [], c, rest. repeat split. exact Hc.
Qed.

(** In a run of chunks heard before speech nothing is yielded, and the
    look-back deque is fed every one of them. *)
Lemma pre_speech_quiet (chunks : list bytes) :
  forall l : Loop,
    all_pre_speech (seg l) chunks = true ->
    all_keep_going (seg l) chunks = true
    /\ yielded (segment_loop l chunks) = []
    /\ advance l chunks
       = Some {| seg := feed (seg l) chunks;
                 chunk_buffer := extend (chunk_buffer l) chunks |}.
Proof.
  induction chunks as [| c chunks IH]; intros l Hall.
  - cbn. destruct l; repeat split; reflexivity.
  - cbn [all_pre_speech] in Hall.
    apply andb_true_iff in Hall as [Hall Hrest].
    apply andb_true_iff in Hall as [Hc Hin].
    apply negb_true_iff in Hin.
    assert (Hi : iteration l c
                 = Continues {| seg := snd (process (seg l) c);
                                chunk_buffer := append (chunk_buffer l) c |} []).
    { unfold keeps_going in Hc. apply andb_true_iff in Hc as [Ht Hp].
      destruct (iteration_cases l c)
        as [[E _] | [(_ & Hf & _) | [(_ & _ & Hin' & _) | (_ & _ & _ & Hi)]]];
        [subst c; discriminate | congruence | congruence | exact Hi]. }
    specialize (IH {| seg := snd (process (seg l) c);
                      chunk_buffer := append (chunk_buffer l) c |} Hrest).
    destruct IH as (Hk & Hy & Hadv).
    cbn [all_keep_going segment_loop advance]. rewrite Hi, Hc.
    cbn [yielded seg chunk_buffer andb] in *. rewrite Hy.
    repeat split; [exact Hk | exact Hadv].
Qed.

(** The deque of every loop state stays within its bound. *)
Lemma advance_bounded (dequeued : list bytes) :
  forall l l' : Loop,
    bounded (chunk_buffer l) ->
    advance l dequeued = Some l' ->
    bounded (chunk_buffer l')
    /\ maxlen (chunk_buffer l') = maxlen (chunk_buffer l).
Proof.
  induction dequeued as [| c rest IH]; intros l l' Hb Hadv.
  - cbn in Hadv. injection Hadv as <-. now split.
  - cbn [advance] in Hadv.
    destruct (iteration_cases l c)
      as [[_ Hi] | [(_ & _ & Hi) | [(_ & _ & _ & Hi) | (_ & _ & _ & Hi)]]];
      rewrite Hi in Hadv; try discriminate.
    + match type of Hadv with advance ?l1 _ = _ =>
        assert (Hb1 : bounded (chunk_buffer l1)) end.
      { cbn [chunk_buffer]. destruct (nonempty (chunk_buffer l)); [| exact Hb].
        unfold bounded, len, clear. cbn. lia. }
      destruct (IH _ l' Hb1 Hadv) as [Hb' Hm]. split; [exact Hb' |].
      rewrite Hm. cbn [chunk_buffer].
      now destruct (nonempty (chunk_buffer l)).
    + destruct (IH {| seg := snd (process (seg l) c);
                      chunk_buffer := append (chunk_buffer l) c |} l')
        as [Hb' Hm]; [apply len_append_le, Hb | exact Hadv |].
      split; [exact Hb' |]. rewrite Hm. apply maxlen_append.
Qed.

(** After [k] chunks heard before speech that all fit in the deque, the
    chunk that starts the command releases them in the order they came,
    followed by itself. *)
Lemma flush_in_order (k : nat) :
  forall (dequeued : list bytes) (l : Loop),
    len (chunk_buffer l) + k <= maxlen (chunk_buffer l) ->
    firstn (S k) (reports_from l dequeued)
      = repeat (Active false) k ++ [Active true] ->
    S k <= length dequeued
    /\ exists rest,
         yielded (segment_loop l dequeued)
         = items (chunk_buffer l) ++ firstn (S k) dequeued ++ rest.
Proof.
  induction k as [| k IH]; intros dequeued l Hroom Hrep;
    (destruct dequeued as [| c rest]; [discriminate |]);
    cbn [reports_from segment_loop] in *;
    destruct (iteration_cases l c)
      as [[_ Hi] | [(_ & _ & Hi) | [(_ & _ & Hin & Hi) | (_ & _ & Hin & Hi)]]];
    rewrite Hi in *; rewrite ?firstn_cons, ?firstn_O in Hrep;
    cbn [seg repeat app] in Hrep; try discriminate; try congruence.
  - split; [cbn; lia |].
    eexists. cbn [yielded firstn]. rewrite <- app_assoc. reflexivity.
  - apply (f_equal (@tl Report)) in Hrep. cbn [tl] in Hrep.
    match type of Hrep with firstn _ (reports_from ?l1 _) = _ =>
      destruct (IH rest l1) as (Hlen & tail & Hy) end.
    + cbn [chunk_buffer]. rewrite maxlen_append.
      unfold len in *. rewrite append_room by (unfold len; lia).
      rewrite length_app. cbn. lia.
    + exact Hrep.
    + split; [cbn; lia |]. exists tail.
      cbn [yielded app chunk_buffer] in *. rewrite Hy.
      rewrite append_room by lia.
      rewrite <- app_assoc. reflexivity.
Qed.

Lemma pre_speech_from_answers (dequeued : list bytes) :
  forall s : segmenter,
    forallb truthy dequeued = true ->
    never_in_command s dequeued = true ->
    all_pre_speech s dequeued = true.
Proof.
  induction dequeued as [| c rest IH]; intros s Hne Hans; [reflexivity |].
  cbn [all_pre_speech never_in_command forallb] in *.
  apply andb_true_iff in Hne as [Hc Hne].
  apply andb_true_iff in Hans as [Hans Hrest].
  apply andb_true_iff in Hans as [Hp Hin].
  unfold keeps_going. rewrite Hc, Hp, Hin. cbn [andb].
  now apply IH.
Qed.

(** C2 (amended): the utterance sequence ends exactly in one of three
    ways.  Either every dequeued chunk was non-empty and accepted by the
    segmenter, and then the wait for the next chunk times out; or it ends
    at the first chunk that is empty or on which the segmenter signals
    the end of the command: that chunk is not emitted, no later chunk is
    looked at, and what was emitted is what the chunks before it gave. *)
Theorem segment_audio_termination (dequeued : list bytes) :
  let u := _segment_audio dequeued in
  (all_keep_going new_segmenter dequeued = true
   /\ exit u = AudioTimeout /\ unread u = [])
  \/ (exists pre c post,
        dequeued = pre ++ c :: post
        /\ all_keep_going new_segmenter pre = true
        /\ (c = [] \/ fst (process (feed new_segmenter pre) c) = false)
        /\ exit u = (if truthy c then CommandFinished else FalsyChunk)
        /\ unread u = post
        /\ yielded u = yielded (_segment_audio pre)).
Proof.
  cbv zeta. unfold _segment_audio.
  destruct (first_stop dequeued new_segmenter)
    as [Hall | (pre & c & post & E & Hpre & Hstop)].
  - left. split; [exact Hall |]. now apply all_keep_going_timeout.
  - right. exists pre, c, post. subst dequeued.
    destruct (segment_loop_app pre initial (c :: post) Hpre)
      as (l' & _ & Hseg & Hy & He & Hu).
    cbn [seg initial] in Hseg.
    rewrite <- Hseg in Hstop.
    pose proof (stops_iteration l' c Hstop) as Hi.
    cbn [segment_loop] in Hy, He, Hu. rewrite Hi in Hy, He, Hu.
    cbn [yielded exit unread] in Hy, He, Hu.
    rewrite app_nil_r in Hy.
    repeat split; try assumption.
    unfold keeps_going in Hstop. rewrite Hseg in Hstop.
    destruct c; [now left | right]. exact Hstop.
Qed.

(** C3: when the segmenter's first [k] answers are "not in a command"
    and the next one is "in a command", with [k] at most the capacity of
    the look-back deque, the utterance starts with the first [k+1] chunks
    of the input, in the order they arrived. *)
Theorem pre_roll_precedes_speech (dequeued : list bytes) (k : nat) :
  k <= _BUFFERED_CHUNKS_BEFORE_SPEECH ->
  firstn (S k) (reports dequeued) = repeat (Active false) k ++ [Active true] ->
  firstn (S k) (yielded (_segment_audio dequeued)) = firstn (S k) dequeued
  /\ length (firstn (S k) dequeued) = S k.
Proof.
  intros Hk Hrep. unfold reports, _segment_audio in *.
  destruct (flush_in_order k dequeued initial) as (Hlen & rest & Hy);
    [cbn; exact Hk | exact Hrep |].
  assert (Hl : length (firstn (S k) dequeued) = S k)
    by (rewrite length_firstn; lia).
  split; [| exact Hl].
  rewrite Hy. cbn [initial chunk_buffer make items app].
  rewrite firstn_app, Hl, Nat.sub_diag, firstn_O, app_nil_r.
  apply firstn_all2. lia.
Qed.

(** C4 (amended): when every chunk of the input is non-empty and the
    segmenter answers each with "go on" and "not in a command", and then
    no chunk arrives in time, nothing is emitted and the extractor ends
    with the audio timeout; all input was consumed and the chunks kept in
    the look-back deque are never emitted. *)
Theorem silence_then_timeout (dequeued : list bytes) :
  forallb truthy dequeued = true ->
  never_in_command new_segmenter dequeued = true ->
  yielded (_segment_audio dequeued) = []
  /\ exit (_segment_audio dequeued) = AudioTimeout
  /\ unread (_segment_audio dequeued) = [].
Proof.
  intros Hne Hans. unfold _segment_audio.
  pose proof (pre_speech_from_answers dequeued new_segmenter Hne Hans) as Hall.
  destruct (pre_speech_quiet dequeued initial Hall) as (Hk & Hy & _).
  split; [exact Hy |]. now apply all_keep_going_timeout.
Qed.

(** C7: whatever sequence of chunks went through the loop, the
    look-back deque holds at most 100 chunks; appending to a full one
    drops its oldest chunk; and after a run of chunks heard before speech
    it holds the newest 100 of them. *)
Theorem lookback_buffer_within_capacity (dequeued : list bytes) (l : Loop) :
  advance initial dequeued = Some l ->
  len (chunk_buffer l) <= _BUFFERED_CHUNKS_BEFORE_SPEECH
  /\ (forall chunk,
        len (chunk_buffer l) = _BUFFERED_CHUNKS_BEFORE_SPEECH ->
        items (append (chunk_buffer l) chunk)
          = tl (items (chunk_buffer l)) ++ [chunk]
        /\ len (append (chunk_buffer l) chunk)
           = _BUFFERED_CHUNKS_BEFORE_SPEECH)
  /\ (all_pre_speech new_segmenter dequeued = true ->
        items (chunk_buffer l)
        = skipn (length dequeued - _BUFFERED_CHUNKS_BEFORE_SPEECH) dequeued).
Proof.
  intros Hadv.
  assert (Hb0 : bounded (chunk_buffer initial)) by (cbn; unfold bounded, len; cbn; lia).
  destruct (advance_bounded dequeued initial Hb0 Hadv) as [Hb Hm].
  change (maxlen (chunk_buffer initial)) with _BUFFERED_CHUNKS_BEFORE_SPEECH in Hm.
  unfold bounded in Hb. rewrite Hm in Hb.
  split; [exact Hb | split].
  - intros chunk Hfull.
    assert (Hitems : items (append (chunk_buffer l) chunk)
                     = tl (items (chunk_buffer l)) ++ [chunk]).
    { rewrite append_full by (rewrite Hm, Hfull; apply Nat.le_refl).
      unfold len in Hfull.
      destruct (items (chunk_buffer l)); [discriminate | reflexivity]. }
    split; [exact Hitems |].
    unfold len in *. rewrite Hitems.
    destruct (items (chunk_buffer l)) as [| a xs]; [discriminate |].
    cbn [tl]. rewrite length_app. cbn in *. lia.
  - intros Hall.
    destruct (pre_speech_quiet dequeued initial Hall) as (_ & _ & Hadv').
    rewrite Hadv in Hadv'. injection Hadv' as ->.
    cbn [chunk_buffer]. rewrite items_extend by exact Hb0. reflexivity.
Qed.

End WithSegmenter.

(** Enumerates the ways to cut a given list as [pre ++ c :: post]. *)
Ltac cut_points E pre :=
  cbn in E;
  repeat (destruct pre as [| ? pre]; cbn in E; try discriminate E).

(** C2 as stated fails: the empty chunk, which the segmenter would let pass,
    ends the sequence although audio is waiting and the segmenter signals
    nothing. *)
Lemma empty_chunk_ends_sequence :
  ~ (forall (VAD : VoiceCommandSegmenter) (dequeued : list bytes),
       let u := _segment_audio dequeued in
       (exit u = AudioTimeout /\ unread u = [])
       \/ (exists pre c,
             dequeued = pre ++ c :: unread u
             /\ fst (process (feed new_segmenter pre) c) = false)).
Proof.
  intros H. specialize (H Demo.demo [[]; Demo.loud]). cbv zeta in H.
  destruct H as [[H _] | (pre & c & E & Hf)]; [discriminate |].
  cut_points E pre.
  injection E as <-. vm_compute in Hf. discriminate.
Qed.

(** C4 as stated fails: with an empty chunk among chunks that the segmenter
    answers with "go on, not in a command", the extractor returns instead of
    timing out. *)
Lemma empty_chunk_no_timeout :
  ~ (forall (VAD : VoiceCommandSegmenter) (dequeued : list bytes),
       never_in_command new_segmenter dequeued = true ->
       yielded (_segment_audio dequeued) = []
       /\ exit (_segment_audio dequeued) = AudioTimeout).
Proof.
  intros H. destruct (H Demo.demo [Demo.quiet; []; Demo.quiet]) as [_ E].
  - reflexivity.
  - discriminate E.
Qed.

Lemma pre_roll_precedes_speech_witness :
  firstn 3 (yielded (@_segment_audio Demo.demo Demo.two_quiet_then_speech))
    = [[x00; x01]; [x00; x02]; [x11]]
  /\ length (firstn 3 Demo.two_quiet_then_speech) = 3.
Proof.
  apply (@pre_roll_precedes_speech Demo.demo Demo.two_quiet_then_speech 2).
  - vm_compute. lia.
  - vm_compute. reflexivity.
Defined.

Lemma silence_then_timeout_witness :
  yielded (@_segment_audio Demo.demo [Demo.quiet; Demo.quiet; [x00]]) = []
  /\ exit (@_segment_audio Demo.demo [Demo.quiet; Demo.quiet; [x00]])
     = AudioTimeout
  /\ unread (@_segment_audio Demo.demo [Demo.quiet; Demo.quiet; [x00]]) = [].
Proof.
  apply (@silence_then_timeout Demo.demo); reflexivity.
Defined.

(** Five chunks before speech, ten of speech, then the chunk that ends the
    command: the utterance is the first fifteen chunks in the order they
    came, and the chunk after the end is left unread. *)
Example utterance_of_fifteen :
  yielded (@_segment_audio Demo.demo Demo.five_ten_end)
    = firstn 15 Demo.five_ten_end
  /\ exit (@_segment_audio Demo.demo Demo.five_ten_end) = CommandFinished
  /\ unread (@_segment_audio Demo.demo Demo.five_ten_end) = [[x0b]].
Proof. vm_compute. repeat split; reflexivity. Qed.

Lemma lookback_buffer_within_capacity_witness :
  let l := {| seg := Demo.not_started : @segmenter Demo.demo;
              chunk_buffer := Deque.mk 100 (repeat Demo.quiet 100) |} in
  len (chunk_buffer l) <= _BUFFERED_CHUNKS_BEFORE_SPEECH
  /\ (forall chunk,
        len (chunk_buffer l) = _BUFFERED_CHUNKS_BEFORE_SPEECH ->
        items (append (chunk_buffer l) chunk)
          = tl (items (chunk_buffer l)) ++ [chunk]
        /\ len (append (chunk_buffer l) chunk)
           = _BUFFERED_CHUNKS_BEFORE_SPEECH)
  /\ (all_pre_speech (@new_segmenter Demo.demo) (repeat Demo.quiet 103) = true ->
        items (chunk_buffer l)
        = skipn (length (repeat Demo.quiet 103) - _BUFFERED_CHUNKS_BEFORE_SPEECH)
                (repeat Demo.quiet 103)).
Proof.
  apply (@lookback_buffer_within_capacity Demo.demo (repeat Demo.quiet 103)).
  vm_compute. reflexivity.
Defined.

End ExtractorFacts.

(** ** The call session *)

Module SessionFacts.

Import Session.

(** Unfolds a handler down to the fields it reads and writes. *)
Ltac handler :=
  cbv [on_chunk _run_pipeline_enter _run_pipeline_leave stt_stream_leave
       queue_get _event_callback _send_media_enter _send_media_resume
       connection_made connection_lost close_transport _clear_audio_queue
       put_nowait async_create_background_task try_finally
       try_except_timeout bind ret raise gets modify lift].

Lemma drain_empty (q : list bytes) : drain q = [].
Proof. induction q as [| c q IH]; [reflexivity | exact IH]. Qed.

Lemma runs_app (ts us : list (TaskId * TaskState)) :
  runs (ts ++ us) = runs ts ++ runs us.
Proof. unfold runs. now rewrite filter_app, map_app. Qed.

Lemma runs_update (ts : list (TaskId * TaskState)) (id : TaskId)
    (old st : TaskState) :
  task_state ts id = Some old -> is_run old = is_run st ->
  runs (task_update ts id st) = runs ts.
Proof.
  induction ts as [| [i o] ts IH]; intros Hfind Hsame; [discriminate |].
  cbn [task_state task_update] in *. destruct (Nat.eqb i id).
  - injection Hfind as ->. unfold runs. cbn. rewrite Hsame.
    now destruct (is_run st).
  - unfold runs in *. cbn. destruct (is_run o); cbn;
      now rewrite (IH Hfind Hsame).
Qed.

Lemma runs_remove_other (ts : list (TaskId * TaskState)) (id : TaskId)
    (old : TaskState) :
  task_state ts id = Some old -> is_run old = false ->
  runs (task_remove ts id) = runs ts.
Proof.
  induction ts as [| [i o] ts IH]; intros Hfind Hno; [discriminate |].
  cbn [task_state task_remove] in *. destruct (Nat.eqb i id).
  - injection Hfind as ->. unfold runs. cbn. now rewrite Hno.
  - unfold runs in *. cbn. destruct (is_run o); cbn;
      now rewrite (IH Hfind Hno).
Qed.

Lemma runs_remove_only (ts : list (TaskId * TaskState)) (id only : TaskId)
    (old : TaskState) :
  task_state ts id = Some old -> is_run old = true -> runs ts = [only] ->
  runs (task_remove ts id) = [] /\ id = only.
Proof.
  induction ts as [| [i o] ts IH]; intros Hfind Hrun Hone; [discriminate |].
  cbn [task_state task_remove] in *. destruct (Nat.eqb_spec i id) as [-> | Hne].
  - injection Hfind as ->. unfold runs in *. cbn in Hone.
    rewrite Hrun in Hone. cbn in Hone. injection Hone as -> Hnil. now split.
  - unfold runs in *. cbn in *. destruct (is_run o); cbn in *.
    + injection Hone as -> Hnil.
      exfalso. clear IH. induction ts as [| [j p] ts IH']; [discriminate |].
      cbn in *. destruct (Nat.eqb j id).
      * injection Hfind as ->. rewrite Hrun in Hnil. discriminate.
      * destruct (is_run p); [discriminate | auto].
    + now apply IH.
Qed.

Lemma runs_nonempty (ts : list (TaskId * TaskState)) (id : TaskId)
    (old : TaskState) :
  task_state ts id = Some old -> is_run old = true -> runs ts <> [].
Proof.
  induction ts as [| [i o] ts IH]; intros Hfind Hrun; [discriminate |].
  cbn [task_state] in Hfind. unfold runs in *. cbn.
  destruct (Nat.eqb i id).
  - injection Hfind as ->. rewrite Hrun. discriminate.
  - destruct (is_run o); [discriminate | now apply IH].
Qed.

Lemma on_chunk_effect (audio_bytes : bytes) (w : World) :
  on_chunk audio_bytes w
  = (Ok tt,
     match _pipeline_task w with
     | Some _ => set_audio_queue (_audio_queue w ++ [audio_bytes]) w
     | None =>
         {| transport := transport w;
            pipeline_timeout := pipeline_timeout w;
            audio_timeout := audio_timeout w;
            _audio_queue := [audio_bytes];
            _pipeline_task := Some (next_task w);
            _conversation_id := _conversation_id w;
            device_active := device_active w;
            tasks := tasks w ++ [(next_task w, RunScheduled)];
            next_task := S (next_task w);
            actions := actions w
                       ++ [CreateBackgroundTask (next_task w)
                             "voip_pipeline_run"] |}
     end).
Proof.
  handler. destruct (_pipeline_task w); [reflexivity |].
  cbn. now rewrite drain_empty.
Qed.

Lemma run_leave_effect (awaited : Result unit) (w : World) :
  _run_pipeline_leave awaited w
  = match awaited with
    | Raise TimeoutError =>
        (Ok tt,
         match transport w with
         | Some t =>
             set_pipeline_task None
               (set_transport None (record (TransportClose t) w))
         | None => set_pipeline_task None w
         end)
    | other => (other, set_pipeline_task None w)
    end.
Proof.
  handler. destruct awaited as [[] | []]; try reflexivity.
  now destruct (transport w).
Qed.

Lemma stream_leave_effect (segmented : Result unit) (w : World) :
  stt_stream_leave segmented w
  = match segmented with
    | Raise TimeoutError =>
        (Ok tt,
         match transport w with
         | Some t =>
             set_audio_queue []
               (set_transport None (record (TransportClose t) w))
         | None => set_audio_queue [] w
         end)
    | other => (other, set_audio_queue [] w)
    end.
Proof.
  handler. destruct segmented as [[] | []]; cbn;
    try (now rewrite drain_empty).
  destruct (transport w); cbn; now rewrite drain_empty.
Qed.

(** The callback leaves the tasks' runs and the run-slot alone. *)
Lemma event_callback_frame (event : PipelineEvent) (w : World) :
  let w' := snd (_event_callback event w) in
  runs (tasks w') = runs (tasks w)
  /\ _pipeline_task w' = _pipeline_task w
  /\ transport w' = transport w
  /\ _audio_queue w' = _audio_queue w.
Proof.
  cbv zeta. handler. destruct (no_data event); [now repeat split |].
  destruct (type event); cbn; [| | now repeat split].
  - destruct (getitem _ "intent_output") as [io |]; cbn; [| now repeat split].
    destruct (getitem io "conversation_id"); cbn; now repeat split.
  - destruct (getitem _ "tts_output") as [o |]; cbn; [| now repeat split].
    destruct (getitem o "media_id"); cbn -[runs]; [| now repeat split].
    rewrite runs_app. cbn. rewrite app_nil_r. now repeat split.
Qed.

Lemma fire_keeps_slot (s : Step) (w w' : World) :
  slot_tracks_runs w -> fire s w = Some w' -> slot_tracks_runs w'.
Proof.
  unfold slot_tracks_runs.
  unfold active_runs.
  intros Hinv Hfire.
  destruct s; cbn [fire] in Hfire.
  - injection Hfire as <-. exact Hinv.
  - injection Hfire as <-. exact Hinv.
  - injection Hfire as <-. rewrite on_chunk_effect. cbn [snd].
    destruct (_pipeline_task w) eqn:Hslot; cbn -[runs].
    + now rewrite Hslot.
    + rewrite runs_app, Hinv. reflexivity.
  - destruct (task_state (tasks w) id) as [[] |] eqn:Hfind; try discriminate.
    injection Hfire as <-. cbn -[runs].
    now rewrite (runs_update _ _ RunAwaitsPipeline Hfind eq_refl).
  - destruct (awaiting_run w); [| discriminate].
    revert Hfire. handler. destruct (_audio_queue w); [discriminate |].
    intros [= <-]. exact Hinv.
  - destruct (awaiting_run w); [| discriminate].
    injection Hfire as <-. rewrite stream_leave_effect.
    destruct segmented as [[] | []]; cbn -[runs]; try exact Hinv.
    destruct (transport w); exact Hinv.
  - injection Hfire as <-.
    destruct (event_callback_frame event w) as (Hr & Hs & _).
    now rewrite Hr, Hs.
  - destruct (task_state (tasks w) id) as [[] |] eqn:Hfind; try discriminate.
    injection Hfire as <-. rewrite run_leave_effect.
    assert (Hone : exists only, runs (tasks w) = [only]).
    { destruct (_pipeline_task w) as [only |]; [now exists only |].
      now destruct (runs_nonempty _ _ Hfind eq_refl). }
    destruct Hone as [only Hone].
    destruct (runs_remove_only _ _ Hfind eq_refl Hone) as [Hnil _].
    destruct awaited as [[] | []]; cbn -[runs]; try exact Hnil.
    destruct (transport w); exact Hnil.
  - destruct (task_state (tasks w) id) as [[] |] eqn:Hfind; try discriminate.
    revert Hfire. handler. destruct (transport w); intros [= <-]; cbn -[runs].
    + now rewrite (runs_update _ _ (SendAwaitsMedia media_id) Hfind eq_refl).
    + now rewrite (runs_remove_other _ _ Hfind eq_refl).
  - destruct (task_state (tasks w) id) as [[] |] eqn:Hfind; try discriminate.
    injection Hfire as <-. handler.
    destruct resolved as [[ext audio] |]; cbn -[runs];
      now rewrite (runs_remove_other _ _ Hfind eq_refl).
Qed.

Lemma run_keeps_slot (steps : list Step) :
  forall w w' : World,
    slot_tracks_runs w -> run steps w = Some w' -> slot_tracks_runs w'.
Proof.
  induction steps as [| s steps IH]; intros w w' Hinv Hrun; cbn in Hrun.
  - now injection Hrun as <-.
  - destruct (fire s w) as [w1 |] eqn:Hfire; [| discriminate].
    exact (IH w1 w' (fire_keeps_slot s Hinv Hfire) Hrun).
Qed.

Lemma fresh_slot : slot_tracks_runs __init__.
Proof. reflexivity. Qed.

(** What a step does to the stored conversation id. *)
Lemma fire_conversation_id (s : Step) (w w' : World) :
  fire s w = Some w' ->
  _conversation_id w' = latest_from (_conversation_id w) [s].
Proof.
  intros Hfire. cbn [latest_from fold_left].
  destruct s; cbn [fire] in Hfire.
  - now injection Hfire as <-.
  - now injection Hfire as <-.
  - injection Hfire as <-. rewrite on_chunk_effect. cbn [snd].
    now destruct (_pipeline_task w).
  - destruct (task_state (tasks w) id) as [[] |]; try discriminate.
    now injection Hfire as <-.
  - destruct (awaiting_run w); [| discriminate].
    revert Hfire. handler. destruct (_audio_queue w); [discriminate |].
    now intros [= <-].
  - destruct (awaiting_run w); [| discriminate].
    injection Hfire as <-. rewrite stream_leave_effect.
    destruct segmented as [[] | []]; cbn; try reflexivity.
    now destruct (transport w).
  - injection Hfire as <-. unfold carried_conversation_id.
    handler. unfold no_data.
    destruct event as [ty [[| entry d] |]]; cbn [type data]; try reflexivity;
      destruct ty; try reflexivity; cbn [getitem].
    + destruct (dict_get (entry :: d) "intent_output") as [[| | o] |];
        cbn; try reflexivity.
      destruct (dict_get o "conversation_id"); reflexivity.
    + destruct (dict_get (entry :: d) "tts_output") as [[| | o] |];
        cbn; try reflexivity.
      destruct (dict_get o "media_id"); reflexivity.
  - destruct (task_state (tasks w) id) as [[] |]; try discriminate.
    injection Hfire as <-. rewrite run_leave_effect.
    destruct awaited as [[] | []]; cbn; try reflexivity.
    now destruct (transport w).
  - destruct (task_state (tasks w) id) as [[] |]; try discriminate.
    revert Hfire. handler. destruct (transport w); now intros [= <-].
  - destruct (task_state (tasks w) id) as [[] |]; try discriminate.
    injection Hfire as <-. handler.
    now destruct resolved as [[ext audio] |].
Qed.

Lemma run_conversation_id (steps : list Step) :
  forall w w' : World,
    run steps w = Some w' ->
    _conversation_id w' = latest_from (_conversation_id w) steps.
Proof.
  induction steps as [| s steps IH]; intros w w' Hrun; cbn [run] in Hrun.
  - now injection Hrun as <-.
  - destruct (fire s w) as [w1 |] eqn:Hfire; [| discriminate].
    rewrite (IH w1 w' Hrun), (@fire_conversation_id s w w1 Hfire). reflexivity.
Qed.

Lemma latest_from_app (pre post : list Step) (current : Value) :
  latest_from current (pre ++ post)
  = latest_from (latest_from current pre) post.
Proof. apply fold_left_app. Qed.

Lemma latest_from_none (steps : list Step) :
  forall current : Value,
    (forall e, In (Event e) steps -> carried_conversation_id e = None) ->
    latest_from current steps = current.
Proof.
  induction steps as [| s steps IH]; intros current Hnone; [reflexivity |].
  cbn [latest_from fold_left].
  change (fold_left _ steps ?c) with (latest_from c steps).
  rewrite IH by (intros e He; apply Hnone; now right).
  destruct s; try reflexivity.
  now rewrite (Hnone event (or_introl eq_refl)).
Qed.

(** C1: in every state a call can reach, at most one pipeline run is
    alive and the run-slot names exactly the live runs; a chunk starts a
    run only when the slot is empty; and leaving a run empties the slot
    whether the pipeline returned, timed out or raised. *)
Theorem one_run_at_a_time (steps : list Step) (w : World) :
  run steps __init__ = Some w ->
  length (active_runs w) <= 1
  /\ active_runs w
     = match _pipeline_task w with Some id => [id] | None => [] end
  /\ (forall audio_bytes,
        active_runs (snd (on_chunk audio_bytes w))
        = match _pipeline_task w with
          | Some _ => active_runs w
          | None => [next_task w]
          end)
  /\ (forall awaited,
        _pipeline_task (snd (_run_pipeline_leave awaited w)) = None)
  /\ (forall id awaited w',
        fire (RunLeaves id awaited) w = Some w' ->
        active_runs w' = [] /\ _pipeline_task w' = None).
Proof.
  intros Hrun.
  pose proof (run_keeps_slot steps fresh_slot Hrun) as Hinv.
  split; [| split; [exact Hinv | split; [| split]]].
  - rewrite Hinv. destruct (_pipeline_task w); cbn; lia.
  - intros audio_bytes. rewrite on_chunk_effect. cbn [snd].
    unfold slot_tracks_runs, active_runs in *.
    destruct (_pipeline_task w); cbn -[runs]; [reflexivity |].
    now rewrite runs_app, Hinv.
  - intros awaited. rewrite run_leave_effect.
    destruct awaited as [[] | []]; cbn; try reflexivity.
    now destruct (transport w).
  - intros id awaited w' Hfire.
    pose proof (fire_keeps_slot _ Hinv Hfire) as Hinv'.
    assert (Hslot : _pipeline_task w' = None).
    { cbn [fire] in Hfire.
      destruct (task_state (tasks w) id) as [[] |]; try discriminate.
      injection Hfire as <-. rewrite run_leave_effect.
      destruct awaited as [[] | []]; cbn; try reflexivity.
      now destruct (transport w). }
    split; [| exact Hslot].
    unfold slot_tracks_runs in Hinv'. now rewrite Hslot in Hinv'.
Qed.

(** C5: when the pipeline run times out, the handler swallows the
    timeout, closes the transport exactly when it is still open and marks
    it closed, empties the run-slot and touches nothing else; handling a
    later timeout, of the run or of the audio stream, closes nothing
    more.  The run timeout defaults to 30 seconds. *)
Theorem pipeline_timeout_hangs_up (w : World) :
  let w' := snd (_run_pipeline_leave (Raise TimeoutError) w) in
  fst (_run_pipeline_leave (Raise TimeoutError) w) = Ok tt
  /\ actions w'
     = actions w
       ++ match transport w with Some t => [TransportClose t] | None => [] end
  /\ length (closes (actions w'))
     = length (closes (actions w))
       + match transport w with Some _ => 1 | None => 0 end
  /\ transport w' = None
  /\ _pipeline_task w' = None
  /\ (_audio_queue w' = _audio_queue w
      /\ _conversation_id w' = _conversation_id w
      /\ tasks w' = tasks w)
  /\ (forall again : Result unit,
        actions (snd (_run_pipeline_leave again w')) = actions w'
        /\ actions (snd (stt_stream_leave again w')) = actions w')
  /\ pipeline_timeout __init__ = 30.
Proof.
  cbv zeta. rewrite run_leave_effect. cbn [fst snd].
  assert (Hcloses : forall acts t,
             length (closes (acts ++ [TransportClose t]))
             = length (closes acts) + 1).
  { intros acts t. induction acts as [| [] acts IH]; cbn in *;
      try rewrite IH; reflexivity. }
  destruct (transport w) as [t |] eqn:Ht; cbn.
  - repeat split; try reflexivity; try apply Hcloses.
    + rewrite run_leave_effect. now destruct again as [[] | []].
    + rewrite stream_leave_effect. now destruct again as [[] | []].
  - rewrite app_nil_r, Ht, Nat.add_0_r. repeat split; try reflexivity.
    + rewrite run_leave_effect. destruct again as [[] | []]; cbn;
        rewrite ?Ht; reflexivity.
    + rewrite stream_leave_effect. destruct again as [[] | []]; cbn;
        rewrite ?Ht; reflexivity.
Qed.

(** C6 (amended): a pipeline run entered in a reachable state passes the
    conversation id of the latest INTENT_END event delivered so far on
    the call.  That is: absent (None) when no such event was delivered;
    and the id [c] of an INTENT_END event for as long as no later
    INTENT_END event brings another one. *)
Theorem conversation_id_follows_latest_intent
    (steps : list Step) (w : World) :
  run steps __init__ = Some w ->
  (forall id w',
     fire (RunEnters id) w = Some w' ->
     actions w'
     = actions w
       ++ [PipelineFromAudioStream (latest_conversation_id steps) 16000 16 1])
  /\ ((forall e, In (Event e) steps -> carried_conversation_id e = None) ->
      latest_conversation_id steps = VNone)
  /\ (forall pre event c post,
        steps = pre ++ Event event :: post ->
        carried_conversation_id event = Some c ->
        (forall e, In (Event e) post -> carried_conversation_id e = None) ->
        latest_conversation_id steps = c).
Proof.
  intros Hrun. pose proof (@run_conversation_id steps __init__ w Hrun) as Hcid.
  change (_conversation_id __init__) with VNone in Hcid.
  fold (latest_conversation_id steps) in Hcid.
  split; [| split].
  - intros id w' Hfire. cbn [fire] in Hfire.
    destruct (task_state (tasks w) id) as [[] |]; try discriminate.
    injection Hfire as <-. cbn. now rewrite Hcid.
  - intros Hnone. now apply latest_from_none.
  - intros pre event c post -> Hc Hnone.
    unfold latest_conversation_id.
    rewrite latest_from_app.
    change (Event event :: post) with ([Event event] ++ post).
    rewrite latest_from_app, latest_from_none by exact Hnone.
    cbn. now rewrite Hc.
Qed.

(** C8: a TTS_END event with a media id in its payload makes the
    callback schedule the sender as a background task.  The sender, once
    it runs, returns at once without any effect when the transport is
    closed; otherwise it asks for the audio of that media id, and what it
    gets back goes to the transport as 16000 Hz, width 2, one channel. *)
Theorem tts_end_sends_audio
    (event : PipelineEvent) (media_id : Value) (w : World) :
  tts_media_id event = Some media_id ->
  _event_callback event w
  = (Ok tt,
     record (CreateBackgroundTask (next_task w) "voip_pipeline_tts")
       (set_next_task (S (next_task w))
          (set_tasks (tasks w ++ [(next_task w, SendScheduled media_id)]) w)))
  /\ (forall w1,
        _send_media_enter media_id w1
        = match transport w1 with
          | None => (Ok SendReturned, w1)
          | Some _ => (Ok (SendAwaits media_id),
                       record (GetMediaSourceAudio media_id) w1)
          end)
  /\ (forall w2 extension audio_bytes,
        _send_media_resume (Ok (extension, audio_bytes)) w2
        = (Ok tt, record (SendAudio audio_bytes 16000 2 1) w2)).
Proof.
  intros Hmedia. split; [| split].
  - unfold tts_media_id in Hmedia. handler. unfold no_data.
    destruct event as [ty [[| entry d] |]]; cbn [type data] in *;
      destruct ty; try discriminate.
    cbn [getitem].
    destruct (dict_get (entry :: d) "tts_output") as [[| | o] |];
      try discriminate.
    cbn [getitem]. rewrite Hmedia. reflexivity.
  - intros w1. handler. now destruct (transport w1).
  - intros w2 extension audio_bytes. reflexivity.
Qed.

(** C9: an event without payload data, and an event that is neither
    INTENT_END nor TTS_END, leave the whole state as it was: the
    callback returns normally, with the same attributes, the same tasks
    and no action recorded. *)
Theorem other_events_ignored (event : PipelineEvent) (w : World) :
  no_data event = true
  \/ (type event <> INTENT_END /\ type event <> TTS_END) ->
  _event_callback event w = (Ok tt, w).
Proof.
  intros [Hnone | [Hi Ht]]; handler.
  - now rewrite Hnone.
  - destruct (no_data event); [reflexivity |].
    destruct (type event); [now destruct Hi | now destruct Ht | reflexivity].
Qed.

(** C10: a delivered chunk always ends up last in the queue and the call
    never fails.  With the run-slot empty the queue is emptied first, so
    that it then holds this chunk alone and the fresh run's first read
    gets it, and one background run is created and put in the slot; with
    a run in the slot the chunk joins the queued ones and nothing else
    changes. *)
Theorem on_chunk_enqueues (audio_bytes : bytes) (w : World) :
  let w' := snd (on_chunk audio_bytes w) in
  fst (on_chunk audio_bytes w) = Ok tt
  /\ _audio_queue w'
     = match _pipeline_task w with
       | None => []
       | Some _ => _audio_queue w
       end ++ [audio_bytes]
  /\ match _pipeline_task w with
     | None =>
         _pipeline_task w' = Some (next_task w)
         /\ tasks w' = tasks w ++ [(next_task w, RunScheduled)]
         /\ actions w'
            = actions w
              ++ [CreateBackgroundTask (next_task w) "voip_pipeline_run"]
         /\ fst (queue_get w') = Ok (Some audio_bytes)
     | Some id =>
         _pipeline_task w' = Some id
         /\ tasks w' = tasks w
         /\ actions w' = actions w
     end
  /\ transport w' = transport w
  /\ _conversation_id w' = _conversation_id w.
Proof.
  cbv zeta. rewrite on_chunk_effect. cbn [fst snd].
  destruct (_pipeline_task w) eqn:Hslot; cbn; rewrite ?Hslot;
    repeat split; reflexivity.
Qed.

(** C6 as stated fails: after two INTENT_END events with different
    conversation ids, the next run does not pass the id of the first. *)
Lemma later_intent_replaces_conversation_id :
  ~ (forall (pre post : list Step) (conversation_id : string)
            (id : TaskId) (w w' : World),
       run (pre ++ Event (intent_end conversation_id) :: post) __init__
         = Some w ->
       fire (RunEnters id) w = Some w' ->
       last (conversation_ids_passed (actions w')) VNone
       = VStr conversation_id).
Proof.
  intros H.
  assert (Hrun : run (firstn 3 Demo.three_runs
                      ++ Event (intent_end "abc123")
                         :: skipn 4 Demo.three_runs) __init__
                 = Some (after Demo.three_runs))
    by (vm_compute; reflexivity).
  assert (Hfire : fire (RunEnters 2) (after Demo.three_runs)
                  = Some (after (Demo.three_runs ++ [RunEnters 2])))
    by (vm_compute; reflexivity).
  specialize (H _ _ _ _ _ _ Hrun Hfire).
  vm_compute in H. discriminate H.
Qed.

Lemma one_run_at_a_time_witness :
  length (active_runs (after Demo.burst)) <= 1
  /\ active_runs (after Demo.burst)
     = match _pipeline_task (after Demo.burst) with
       | Some id => [id]
       | None => []
       end
  /\ (forall audio_bytes,
        active_runs (snd (on_chunk audio_bytes (after Demo.burst)))
        = match _pipeline_task (after Demo.burst) with
          | Some _ => active_runs (after Demo.burst)
          | None => [next_task (after Demo.burst)]
          end)
  /\ (forall awaited,
        _pipeline_task (snd (_run_pipeline_leave awaited (after Demo.burst)))
        = None)
  /\ (forall id awaited w',
        fire (RunLeaves id awaited) (after Demo.burst) = Some w' ->
        active_runs w' = [] /\ _pipeline_task w' = None).
Proof.
  apply (@one_run_at_a_time Demo.burst (after Demo.burst)).
  vm_compute. reflexivity.
Defined.

Lemma conversation_id_follows_latest_intent_witness :
  (forall id w',
     fire (RunEnters id) (after Demo.three_runs) = Some w' ->
     actions w'
     = actions (after Demo.three_runs)
       ++ [PipelineFromAudioStream
             (latest_conversation_id Demo.three_runs) 16000 16 1])
  /\ ((forall e, In (Event e) Demo.three_runs ->
                 carried_conversation_id e = None) ->
      latest_conversation_id Demo.three_runs = VNone)
  /\ (forall pre event c post,
        Demo.three_runs = pre ++ Event event :: post ->
        carried_conversation_id event = Some c ->
        (forall e, In (Event e) post -> carried_conversation_id e = None) ->
        latest_conversation_id Demo.three_runs = c).
Proof.
  apply (@conversation_id_follows_latest_intent
           Demo.three_runs (after Demo.three_runs)).
  vm_compute. reflexivity.
Defined.

Lemma tts_end_sends_audio_witness :
  _event_callback (tts_end "media-1") __init__
  = (Ok tt,
     record (CreateBackgroundTask 0 "voip_pipeline_tts")
       (set_next_task 1
          (set_tasks [(0, SendScheduled (VStr "media-1"))] __init__))).
Proof.
  apply (@tts_end_sends_audio (tts_end "media-1") (VStr "media-1") __init__).
  reflexivity.
Defined.

Lemma other_events_ignored_witness :
  _event_callback {| type := INTENT_END; data := Some [] |}
                  (after Demo.burst)
  = (Ok tt, after Demo.burst).
Proof.
  apply (@other_events_ignored _ (after Demo.burst)).
  left. reflexivity.
Defined.

End SessionFacts.


(** ** More on the utterance extractor *)

Module ExtractorMore.

Import Extractor DequeFacts ExtractorFacts.

Lemma subsequence_nil_l {A} (ys : list A) : subsequence [] ys.
Proof.
  induction ys as [| y ys IH]; [constructor | now apply subsequence_skip].
Qed.

Lemma subsequence_refl {A} (xs : list A) : subsequence xs xs.
Proof.
  induction xs as [| x xs IH]; [constructor | now apply subsequence_keep].
Qed.

Lemma subsequence_app {A} (xs ys xs' ys' : list A) :
  subsequence xs ys -> subsequence xs' ys' ->
  subsequence (xs ++ xs') (ys ++ ys').
Proof.
  intros H H'. induction H as [| y xs ys _ IH | x xs ys _ IH]; cbn.
  - exact H'.
  - now apply subsequence_skip.
  - now apply subsequence_keep.
Qed.

Lemma subsequence_length {A} (xs ys : list A) :
  subsequence xs ys -> length xs <= length ys.
Proof. induction 1; cbn; lia. Qed.

(** What a deque holds after an append was there before, or is the new
    item. *)
Lemma append_subsequence {A} (d : deque A) (x : A) :
  subsequence (items (append d x)) (items d ++ [x]).
Proof.
  unfold append. destruct (maxlen d <? length (items d ++ [x])); cbn [items].
  - destruct (items d ++ [x]) as [| a l]; cbn [tl].
    + constructor.
    + apply subsequence_skip, subsequence_refl.
  - apply subsequence_refl.
Qed.

Section WithSegmenter.

Context {VAD : VoiceCommandSegmenter}.

Lemma yielded_subsequence (dequeued : list bytes) :
  forall l : Loop,
    subsequence (yielded (segment_loop l dequeued))
                (items (chunk_buffer l) ++ dequeued).
Proof.
  induction dequeued as [| c rest IH]; intros l; cbn [segment_loop].
  - cbn. apply subsequence_nil_l.
  - destruct (iteration_cases l c)
      as [[_ Hi] | [(_ & _ & Hi) | [(_ & _ & _ & Hi) | (_ & _ & _ & Hi)]]];
      rewrite Hi; cbn [yielded]; try apply subsequence_nil_l.
    + match goal with |- context [segment_loop ?l1 rest] =>
        specialize (IH l1); assert (Hempty : items (chunk_buffer l1) = []) end.
      { cbn [chunk_buffer]. unfold nonempty.
        destruct (items (chunk_buffer l)) eqn:E; [exact E | reflexivity]. }
      rewrite Hempty in IH. cbn [app] in IH.
      replace (items (chunk_buffer l) ++ c :: rest)
        with ((items (chunk_buffer l) ++ [c]) ++ rest)
        by (now rewrite <- app_assoc).
      apply subsequence_app; [apply subsequence_refl | exact IH].
    + cbn [app].
      match goal with |- context [segment_loop ?l1 rest] =>
        specialize (IH l1) end.
      cbn [chunk_buffer] in IH.
      replace (items (chunk_buffer l) ++ c :: rest)
        with ((items (chunk_buffer l) ++ [c]) ++ rest)
        by (now rewrite <- app_assoc).
      pose proof (append_subsequence (chunk_buffer l) c) as Hsub.
      remember (items (append (chunk_buffer l) c)) as kept eqn:Hkept.
      remember (items (chunk_buffer l) ++ [c]) as given eqn:Hgiven.
      clear Hkept Hgiven Hi.
      revert IH. generalize (yielded (segment_loop
        {| seg := snd (process (seg l) c);
           chunk_buffer := append (chunk_buffer l) c |} rest)).
      induction Hsub as [| y xs ys _ IHs | x xs ys _ IHs]; intros out Hout.
      * exact Hout.
      * cbn [app]. apply subsequence_skip. now apply IHs.
      * cbn [app] in *. inversion Hout as [| y' xs' ys' Hrest | x' xs' ys' Hrest];
          subst.
        -- apply subsequence_skip. now apply IHs.
        -- apply subsequence_keep. now apply IHs.
Qed.

(** X1: whatever the segmenter answers, the chunks of an utterance are
    chunks that were dequeued, each at most once and in the order they
    arrived; so an utterance is never longer than its input. *)
Theorem utterance_is_subsequence (dequeued : list bytes) :
  subsequence (yielded (_segment_audio dequeued)) dequeued
  /\ length (yielded (_segment_audio dequeued)) <= length dequeued.
Proof.
  assert (H : subsequence (yielded (_segment_audio dequeued)) dequeued)
    by exact (yielded_subsequence dequeued initial).
  split; [exact H | now apply subsequence_length].
Qed.

Lemma yielded_extends (pre : list bytes) :
  forall (l : Loop) (post : list bytes),
  exists later,
    yielded (segment_loop l (pre ++ post))
    = yielded (segment_loop l pre) ++ later.
Proof.
  induction pre as [| c pre IH]; intros l post.
  - eexists. reflexivity.
  - cbn [app segment_loop]. destruct (iteration l c) as [l' out | why].
    + destruct (IH l' post) as [later Hl]. exists later.
      cbn [yielded]. now rewrite Hl, app_assoc.
    + exists []. reflexivity.
Qed.

(** X2: audio that arrives later never changes what was already emitted:
    the utterance over a longer input starts with the utterance over any
    prefix of it. *)
Theorem utterance_grows_with_input (pre post : list bytes) :
  exists later,
    yielded (_segment_audio (pre ++ post))
    = yielded (_segment_audio pre) ++ later.
Proof. exact (yielded_extends pre initial post). Qed.

(** While the segmenter stays in a command and the deque is empty, every
    chunk is passed on as it comes. *)
Lemma in_command_passes (cmd : list bytes) :
  forall l : Loop,
    items (chunk_buffer l) = [] ->
    all_in_command (seg l) cmd = true ->
    exists l',
      seg l' = feed (seg l) cmd
      /\ forall rest,
           yielded (segment_loop l (cmd ++ rest))
             = cmd ++ yielded (segment_loop l' rest)
           /\ exit (segment_loop l (cmd ++ rest)) = exit (segment_loop l' rest)
           /\ unread (segment_loop l (cmd ++ rest))
              = unread (segment_loop l' rest).
Proof.
  induction cmd as [| c cmd IH]; intros l Hempty Hall.
  - exists l. split; [reflexivity |]. intros rest. now repeat split.
  - cbn [all_in_command] in Hall.
    apply andb_true_iff in Hall as [Hall Hrest].
    apply andb_true_iff in Hall as [Hc Hin].
    unfold keeps_going in Hc. apply andb_true_iff in Hc as [Ht Hp].
    destruct (iteration_cases l c)
      as [[E _] | [(_ & Hf & _) | [(_ & _ & _ & Hi) | (_ & _ & Hin' & _)]]];
      [subst c; discriminate | congruence | | congruence].
    match type of Hi with _ = Continues ?l1 _ =>
      destruct (IH l1) as (l' & Hseg & Hrun) end.
    + cbn [chunk_buffer]. unfold nonempty. now rewrite Hempty.
    + exact Hrest.
    + exists l'. split; [exact Hseg |]. intros rest.
      destruct (Hrun rest) as (Hy & He & Hu).
      cbn [app segment_loop]. rewrite Hi. cbn [yielded exit unread].
      rewrite Hy, He, Hu, Hempty. now repeat split.
Qed.

(** X3: an utterance with any number of chunks before speech, at least one
    chunk of speech, and then a chunk that stops the loop: what is emitted
    is the newest 100 chunks from before the speech followed by the speech,
    the stopping chunk is left out and the chunks after it stay unread. *)
Theorem utterance_with_pre_roll
    (pre : list bytes) (c : bytes) (cs : list bytes) (e : bytes)
    (rest : list bytes) :
  all_pre_speech new_segmenter pre = true ->
  all_in_command (feed new_segmenter pre) (c :: cs) = true ->
  keeps_going (feed new_segmenter (pre ++ c :: cs)) e = false ->
  yielded (_segment_audio (pre ++ (c :: cs) ++ e :: rest))
    = skipn (length pre - _BUFFERED_CHUNKS_BEFORE_SPEECH) pre ++ c :: cs
  /\ exit (_segment_audio (pre ++ (c :: cs) ++ e :: rest))
     = (if truthy e then CommandFinished else FalsyChunk)
  /\ unread (_segment_audio (pre ++ (c :: cs) ++ e :: rest)) = rest.
Proof.
  intros Hpre Hcmd Hend. unfold _segment_audio.
  assert (Hb0 : bounded (chunk_buffer initial))
    by (unfold bounded, len; cbn; lia).
  destruct (pre_speech_quiet pre initial Hpre) as (Hgo & Hquiet & Hadv).
  destruct (segment_loop_app pre initial ((c :: cs) ++ e :: rest) Hgo)
    as (l1 & Hadv1 & Hseg1 & Hy1 & He1 & Hu1).
  rewrite Hadv in Hadv1. injection Hadv1 as <-.
  rewrite Hy1, He1, Hu1, Hquiet. cbn [app seg initial] in *.
  (* the chunk that starts the command *)
  cbn [all_in_command] in Hcmd.
  apply andb_true_iff in Hcmd as [Hcmd Hcs].
  apply andb_true_iff in Hcmd as [Hc Hin].
  unfold keeps_going in Hc. apply andb_true_iff in Hc as [Ht Hp].
  match goal with |- context [segment_loop ?l (c :: _)] => set (l1 := l) end.
  destruct (iteration_cases l1 c)
    as [[E _] | [(_ & Hf & _) | [(_ & _ & _ & Hi) | (_ & _ & Hin' & _)]]];
    [subst c; discriminate | unfold l1 in Hf; cbn [seg] in Hf; congruence | |
     unfold l1 in Hin'; cbn [seg] in Hin'; congruence].
  cbn [segment_loop]. rewrite Hi. cbn [yielded exit unread].
  match type of Hi with _ = Continues ?l _ => set (l2 := l) in * end.
  destruct (in_command_passes cs l2) as (l3 & Hseg3 & Hrun).
  { unfold l2. cbn [chunk_buffer]. unfold nonempty.
    destruct (items (chunk_buffer l1)) eqn:E; [exact E | reflexivity]. }
  { exact Hcs. }
  destruct (Hrun (e :: rest)) as (Hy & He & Hu). rewrite Hy, He, Hu.
  assert (Hstop : keeps_going (seg l3) e = false).
  { rewrite Hseg3. unfold l2, l1. cbn [seg].
    unfold feed in *. rewrite fold_left_app in Hend. exact Hend. }
  cbn [segment_loop]. rewrite (stops_iteration l3 e Hstop).
  cbn [yielded exit unread]. rewrite app_nil_r.
  unfold l1. cbn [chunk_buffer].
  rewrite items_extend by exact Hb0. cbn [initial chunk_buffer make items app maxlen].
  rewrite <- app_assoc. now repeat split.
Qed.

End WithSegmenter.

Lemma utterance_with_pre_roll_witness :
  yielded (@_segment_audio Demo.demo
             (Demo.long_silence
              ++ (Demo.loud :: [[x01]; [x02]]) ++ Demo.quiet :: [Demo.loud]))
    = skipn (length Demo.long_silence - _BUFFERED_CHUNKS_BEFORE_SPEECH)
            Demo.long_silence
      ++ Demo.loud :: [[x01]; [x02]]
  /\ exit (@_segment_audio Demo.demo
             (Demo.long_silence
              ++ (Demo.loud :: [[x01]; [x02]]) ++ Demo.quiet :: [Demo.loud]))
     = (if truthy Demo.quiet then CommandFinished else FalsyChunk)
  /\ unread (@_segment_audio Demo.demo
               (Demo.long_silence
                ++ (Demo.loud :: [[x01]; [x02]]) ++ Demo.quiet :: [Demo.loud]))
     = [Demo.loud].
Proof.
  apply (@utterance_with_pre_roll Demo.demo); vm_compute; reflexivity.
Defined.

End ExtractorMore.

(** ** More on the call session *)

Module SessionMore.

Import Session SessionFacts.

Lemma run_app (steps more : list Step) :
  forall w : World,
    run (steps ++ more) w
    = match run steps w with
      | Some w' => run more w'
      | None => None
      end.
Proof.
  induction steps as [| s steps IH]; intros w; cbn [app run]; [reflexivity |].
  destruct (fire s w); [apply IH | reflexivity].
Qed.

(** Induction over the states a fresh protocol object can reach, taking
    the steps one by one. *)
Lemma reach_ind (P : list Step -> World -> Prop) :
  P [] __init__ ->
  (forall steps w s w',
     run steps __init__ = Some w -> P steps w -> fire s w = Some w' ->
     P (steps ++ [s]) w') ->
  forall steps w, run steps __init__ = Some w -> P steps w.
Proof.
  intros Hinit Hstep steps.
  induction steps as [| s steps IH] using rev_ind; intros w Hrun.
  - cbn in Hrun. now injection Hrun as <-.
  - rewrite run_app in Hrun.
    destruct (run steps __init__) as [w1 |] eqn:Hrun1; [| discriminate].
    cbn [run] in Hrun. destruct (fire s w1) as [w2 |] eqn:Hfire; [| discriminate].
    injection Hrun as <-.
    exact (Hstep steps w1 s w2 Hrun1 (IH w1 eq_refl) Hfire).
Qed.

(** The callback on an INTENT_END event that has payload data. *)
Lemma callback_intent_end (event : PipelineEvent) (d : Dict) (w : World) :
  type event = INTENT_END -> data event = Some d -> d <> [] ->
  _event_callback event w
  = match dict_get d "intent_output" with
    | None => (Raise (KeyError "intent_output"), w)
    | Some (VDict intent_output) =>
        match dict_get intent_output "conversation_id" with
        | Some c => (Ok tt, set_conversation_id c w)
        | None => (Raise (KeyError "conversation_id"), w)
        end
    | Some _ => (Raise TypeError, w)
    end.
Proof.
  intros Hty Hd Hne. handler. unfold no_data. rewrite Hd, Hty.
  destruct d as [| entry d]; [now destruct Hne |]. cbn [getitem].
  destruct (dict_get (entry :: d) "intent_output") as [[| | o] |];
    try reflexivity.
  cbn [getitem]. now destruct (dict_get o "conversation_id").
Qed.

(** The callback on a TTS_END event that has payload data. *)
Lemma callback_tts_end (event : PipelineEvent) (d : Dict) (w : World) :
  type event = TTS_END -> data event = Some d -> d <> [] ->
  _event_callback event w
  = match dict_get d "tts_output" with
    | None => (Raise (KeyError "tts_output"), w)
    | Some (VDict tts_output) =>
        match dict_get tts_output "media_id" with
        | Some m =>
            (Ok tt,
             record (CreateBackgroundTask (next_task w) "voip_pipeline_tts")
               (set_next_task (S (next_task w))
                  (set_tasks (tasks w ++ [(next_task w, SendScheduled m)]) w)))
        | None => (Raise (KeyError "media_id"), w)
        end
    | Some _ => (Raise TypeError, w)
    end.
Proof.
  intros Hty Hd Hne. handler. unfold no_data. rewrite Hd, Hty.
  destruct d as [| entry d]; [now destruct Hne |]. cbn [getitem].
  destruct (dict_get (entry :: d) "tts_output") as [[| | o] |];
    try reflexivity.
  cbn [getitem]. now destruct (dict_get o "media_id").
Qed.

(** What the callback can do to the state: schedule a sender for the
    media id of the event, store a conversation id, or nothing. *)
Lemma callback_cases (event : PipelineEvent) (w : World) :
  (exists m,
     tts_media_id event = Some m
     /\ snd (_event_callback event w)
        = record (CreateBackgroundTask (next_task w) "voip_pipeline_tts")
            (set_next_task (S (next_task w))
               (set_tasks (tasks w ++ [(next_task w, SendScheduled m)]) w)))
  \/ (tts_media_id event = None
      /\ (snd (_event_callback event w) = w
          \/ exists c, snd (_event_callback event w) = set_conversation_id c w)).
Proof.
  destruct event as [ty dat]. unfold tts_media_id. cbn [type data].
  destruct dat as [[| entry d] |].
  - right. split; [now destruct ty |]. left. now destruct ty.
  - destruct ty.
    + right. split; [reflexivity |].
      match goal with |- context [_event_callback ?ev w] =>
        rewrite (@callback_intent_end ev (entry :: d) w eq_refl eq_refl)
          by discriminate end.
      destruct (dict_get (entry :: d) "intent_output") as [[| | o] |];
        try (now left).
      destruct (dict_get o "conversation_id") as [c |]; [| now left].
      right. now exists c.
    + match goal with |- context [_event_callback ?ev w] =>
        rewrite (@callback_tts_end ev (entry :: d) w eq_refl eq_refl)
          by discriminate end.
      destruct (dict_get (entry :: d) "tts_output") as [[| | o] |];
        try (right; split; [reflexivity | now left]).
      destruct (dict_get o "media_id") as [m |].
      * left. now exists m.
      * right. split; [reflexivity | now left].
    + right. split; [reflexivity | now left].
  - right. split; [now destruct ty |]. left. now destruct ty.
Qed.

(** X7: the callback on an INTENT_END event with payload data stores
    [data["intent_output"]["conversation_id"]], whatever value that is, and
    changes nothing else.  When a key is missing it raises KeyError for
    that key, when [intent_output] is not a dict it raises TypeError, and
    in both cases the state, the stored conversation id included, is left
    as it was. *)
Theorem intent_end_stores_conversation_id
    (event : PipelineEvent) (d : Dict) (w : World) :
  type event = INTENT_END -> data event = Some d -> d <> [] ->
  _event_callback event w
  = match dict_get d "intent_output" with
    | None => (Raise (KeyError "intent_output"), w)
    | Some (VDict intent_output) =>
        match dict_get intent_output "conversation_id" with
        | Some c => (Ok tt, set_conversation_id c w)
        | None => (Raise (KeyError "conversation_id"), w)
        end
    | Some _ => (Raise TypeError, w)
    end.
Proof. apply callback_intent_end. Qed.

(** X8: the callback on a TTS_END event with payload data schedules the
    sender only when [data["tts_output"]["media_id"]] is there.  When a key
    is missing it raises KeyError for that key, when [tts_output] is not a
    dict it raises TypeError, and then no task is created and nothing else
    changes. *)
Theorem tts_end_needs_media_id
    (event : PipelineEvent) (d : Dict) (w : World) :
  type event = TTS_END -> data event = Some d -> d <> [] ->
  _event_callback event w
  = match dict_get d "tts_output" with
    | None => (Raise (KeyError "tts_output"), w)
    | Some (VDict tts_output) =>
        match dict_get tts_output "media_id" with
        | Some m =>
            (Ok tt,
             record (CreateBackgroundTask (next_task w) "voip_pipeline_tts")
               (set_next_task (S (next_task w))
                  (set_tasks (tasks w ++ [(next_task w, SendScheduled m)]) w)))
        | None => (Raise (KeyError "media_id"), w)
        end
    | Some _ => (Raise TypeError, w)
    end.
Proof. apply callback_tts_end. Qed.

Lemma intent_end_stores_conversation_id_witness :
  _event_callback
    {| type := INTENT_END;
       data := Some [("intent_output"%string,
                      VDict [("speech"%string, VStr "ok")])] |}
    (after Demo.served)
  = match dict_get [("intent_output"%string,
                     VDict [("speech"%string, VStr "ok")])]
                   "intent_output" with
    | None => (Raise (KeyError "intent_output"), after Demo.served)
    | Some (VDict intent_output) =>
        match dict_get intent_output "conversation_id" with
        | Some c => (Ok tt, set_conversation_id c (after Demo.served))
        | None => (Raise (KeyError "conversation_id"), after Demo.served)
        end
    | Some _ => (Raise TypeError, after Demo.served)
    end.
Proof.
  apply (@intent_end_stores_conversation_id _ _ (after Demo.served));
    [reflexivity | reflexivity | discriminate].
Defined.

Lemma tts_end_needs_media_id_witness :
  _event_callback
    {| type := TTS_END;
       data := Some [("tts_output"%string, VStr "not a dict")] |}
    (after Demo.served)
  = match dict_get [("tts_output"%string, VStr "not a dict")]
                   "tts_output" with
    | None => (Raise (KeyError "tts_output"), after Demo.served)
    | Some (VDict tts_output) =>
        match dict_get tts_output "media_id" with
        | Some m =>
            (Ok tt,
             record (CreateBackgroundTask (next_task (after Demo.served))
                       "voip_pipeline_tts")
               (set_next_task (S (next_task (after Demo.served)))
                  (set_tasks (tasks (after Demo.served)
                              ++ [(next_task (after Demo.served),
                                   SendScheduled m)])
                             (after Demo.served))))
        | None => (Raise (KeyError "media_id"), after Demo.served)
        end
    | Some _ => (Raise TypeError, after Demo.served)
    end.
Proof.
  apply (@tts_end_needs_media_id _ _ (after Demo.served));
    [reflexivity | reflexivity | discriminate].
Defined.

Import Extractor ExtractorMore.

Lemma subsequence_drop_suffix {A} (xs tail ys : list A) :
  subsequence (xs ++ tail) ys -> subsequence xs ys.
Proof.
  revert xs. induction ys as [| y ys IH]; intros xs H.
  - inversion H as [E | |]. destruct xs; [constructor | discriminate].
  - destruct xs as [| x xs]; [apply subsequence_nil_l |].
    cbn [app] in H.
    inversion H as [| y' xs' ys' Hrest | x' xs' ys' Hrest]; subst.
    + apply subsequence_skip. apply IH. exact Hrest.
    + apply subsequence_keep. apply IH. exact Hrest.
Qed.

Lemma subsequence_in {A} (xs ys : list A) (x : A) :
  subsequence xs ys -> In x xs -> In x ys.
Proof.
  induction 1 as [| y xs ys _ IH | x' xs ys _ IH]; intros Hin.
  - exact Hin.
  - right. now apply IH.
  - destruct Hin as [-> | Hin]; [now left | right; now apply IH].
Qed.

Lemma subsequence_nodup {A} (xs ys : list A) :
  subsequence xs ys -> NoDup ys -> NoDup xs.
Proof.
  induction 1 as [| y xs ys _ IH | x xs ys Hsub IH]; intros Hnd.
  - exact Hnd.
  - inversion Hnd; subst. now apply IH.
  - inversion Hnd as [| x' ys' Hnotin Hrest]; subst. constructor.
    + intros Hin. apply Hnotin. exact (subsequence_in x Hsub Hin).
    + now apply IH.
Qed.

Lemma closes_app (acts more : list Action) :
  closes (acts ++ more) = closes acts ++ closes more.
Proof.
  induction acts as [| [] acts IH]; cbn; rewrite ?IH; reflexivity.
Qed.

Lemma connections_app (steps more : list Step) :
  connections (steps ++ more) = connections steps ++ connections more.
Proof.
  induction steps as [| [] steps IH]; cbn; rewrite ?IH; reflexivity.
Qed.

Lemma fire_closes (steps : list Step) (s : Step) (w w' : World) :
  closes_follow_connections steps w -> fire s w = Some w' ->
  closes_follow_connections (steps ++ [s]) w'.
Proof.
  unfold closes_follow_connections, open_transport.
  rewrite connections_app. intros Hinv Hfire.
  assert (Hsame : forall w1,
             actions w1 = actions w -> transport w1 = transport w ->
             connections [s] = [] ->
             subsequence
               (closes (actions w1)
                ++ match transport w1 with Some t => [t] | None => [] end)
               (connections steps ++ connections [s])).
  { intros w1 -> -> ->. now rewrite app_nil_r. }
  assert (Hclose : forall w1 t,
             transport w = Some t ->
             actions w1 = actions w ++ [TransportClose t] ->
             transport w1 = None -> connections [s] = [] ->
             subsequence
               (closes (actions w1)
                ++ match transport w1 with Some t => [t] | None => [] end)
               (connections steps ++ connections [s])).
  { intros w1 t Ht -> -> ->. rewrite Ht in Hinv.
    rewrite closes_app, !app_nil_r. exact Hinv. }
  assert (Hrec : forall w1 a,
             actions w1 = actions w ++ [a] -> closes [a] = [] ->
             transport w1 = transport w -> connections [s] = [] ->
             subsequence
               (closes (actions w1)
                ++ match transport w1 with Some t => [t] | None => [] end)
               (connections steps ++ connections [s])).
  { intros w1 a -> Ha -> ->. now rewrite closes_app, Ha, !app_nil_r. }
  destruct s; cbn [fire] in Hfire.
  - injection Hfire as <-. cbn.
    apply subsequence_app; [| apply subsequence_refl].
    exact (subsequence_drop_suffix _ _ Hinv).
  - injection Hfire as <-. now apply Hsame.
  - injection Hfire as <-. rewrite on_chunk_effect. cbn [snd].
    destruct (_pipeline_task w).
    + now apply Hsame.
    + now apply (Hrec _ (CreateBackgroundTask (next_task w) "voip_pipeline_run")).
  - destruct (task_state (tasks w) id) as [[] |]; try discriminate.
    injection Hfire as <-.
    now apply (Hrec _ (PipelineFromAudioStream (_conversation_id w) 16000 16 1)).
  - destruct (awaiting_run w); [| discriminate].
    revert Hfire. handler. destruct (_audio_queue w); [discriminate |].
    intros [= <-]. now apply Hsame.
  - destruct (awaiting_run w); [| discriminate].
    injection Hfire as <-. rewrite stream_leave_effect.
    destruct segmented as [[] | []]; cbn [snd]; try now apply Hsame.
    destruct (transport w) as [t |] eqn:Ht.
    + now apply (Hclose _ t).
    + apply Hsame; cbn; now rewrite ?Ht.
  - injection Hfire as <-.
    destruct (callback_cases event w) as [(m & _ & ->) | (_ & [-> | (c & ->)])].
    + now apply (Hrec _ (CreateBackgroundTask (next_task w) "voip_pipeline_tts")).
    + now apply Hsame.
    + now apply Hsame.
  - destruct (task_state (tasks w) id) as [[] |]; try discriminate.
    injection Hfire as <-. rewrite run_leave_effect.
    destruct awaited as [[] | []]; cbn [snd]; try now apply Hsame.
    destruct (transport w) as [t |] eqn:Ht.
    + now apply (Hclose _ t).
    + apply Hsame; cbn; now rewrite ?Ht.
  - destruct (task_state (tasks w) id) as [[] |]; try discriminate.
    revert Hfire. handler. destruct (transport w) eqn:Ht; intros [= <-].
    + apply (Hrec _ (GetMediaSourceAudio media_id)); cbn; now rewrite ?Ht.
    + apply Hsame; cbn; now rewrite ?Ht.
  - destruct (task_state (tasks w) id) as [[] |]; try discriminate.
    injection Hfire as <-. handler.
    destruct resolved as [[ext audio] |]; cbn [snd].
    + now apply (Hrec _ (SendAudio audio 16000 2 1)).
    + now apply Hsame.
Qed.

(** X5: in every state a call can reach, the transports closed so far,
    followed by the one still held, are among those handed over by
    [connection_made], in the order they were handed over.  So when these
    are distinct objects, no transport is closed twice and the one still
    held has not been closed. *)
Theorem transport_closed_at_most_once (steps : list Step) (w : World) :
  run steps __init__ = Some w ->
  subsequence (closes (actions w) ++ open_transport w) (connections steps)
  /\ (NoDup (connections steps) ->
      NoDup (closes (actions w) ++ open_transport w)).
Proof.
  intros Hrun.
  assert (H : closes_follow_connections steps w).
  { revert steps w Hrun. apply reach_ind.
    - constructor.
    - intros steps w s w' _ Hinv Hfire. exact (fire_closes s Hinv Hfire). }
  split; [exact H |]. intros Hnd. exact (subsequence_nodup H Hnd).
Qed.

Lemma chunks_while_running (cs : list bytes) :
  forall (w : World) (id : TaskId),
    _pipeline_task w = Some id ->
    exists w',
      run (map Chunk cs) w = Some w'
      /\ _audio_queue w' = _audio_queue w ++ cs
      /\ _pipeline_task w' = Some id
      /\ tasks w' = tasks w
      /\ actions w' = actions w
      /\ next_task w' = next_task w.
Proof.
  induction cs as [| c cs IH]; intros w id Hslot.
  - exists w. cbn. rewrite app_nil_r. now repeat split.
  - cbn [map run fire]. rewrite on_chunk_effect, Hslot. cbn [snd].
    destruct (IH (set_audio_queue (_audio_queue w ++ [c]) w) id Hslot)
      as (w' & Hrun & Hq & Hs & Ht & Ha & Hn).
    exists w'. cbn in *. rewrite Hq, <- app_assoc. now repeat split.
Qed.

(** X6: a burst of chunks delivered to an idle session, before the event
    loop gets to run anything else, creates exactly one pipeline run and
    leaves all the chunks queued in the order they came. *)
Theorem burst_starts_one_run (c : bytes) (cs : list bytes) (w : World) :
  _pipeline_task w = None ->
  exists w',
    run (map Chunk (c :: cs)) w = Some w'
    /\ _audio_queue w' = c :: cs
    /\ _pipeline_task w' = Some (next_task w)
    /\ tasks w' = tasks w ++ [(next_task w, RunScheduled)]
    /\ actions w'
       = actions w ++ [CreateBackgroundTask (next_task w) "voip_pipeline_run"].
Proof.
  intros Hidle. cbn [map run fire]. rewrite on_chunk_effect, Hidle. cbn [snd].
  match goal with |- context [run _ ?w1] =>
    destruct (@chunks_while_running cs w1 (next_task w) eq_refl)
      as (w' & Hrun & Hq & Hs & Ht & Ha & _) end.
  exists w'. cbn in *. now repeat split.
Qed.

Lemma transport_closed_at_most_once_witness :
  subsequence (closes (actions (after Demo.hung_up))
               ++ open_transport (after Demo.hung_up))
              (connections Demo.hung_up)
  /\ (NoDup (connections Demo.hung_up) ->
      NoDup (closes (actions (after Demo.hung_up))
             ++ open_transport (after Demo.hung_up))).
Proof.
  apply (@transport_closed_at_most_once Demo.hung_up).
  vm_compute. reflexivity.
Defined.

Lemma burst_starts_one_run_witness :
  exists w',
    run (map Chunk (Demo.quiet :: [Demo.loud; Demo.loud])) __init__ = Some w'
    /\ _audio_queue w' = Demo.quiet :: [Demo.loud; Demo.loud]
    /\ _pipeline_task w' = Some (next_task __init__)
    /\ tasks w' = tasks __init__ ++ [(next_task __init__, RunScheduled)]
    /\ actions w'
       = actions __init__
         ++ [CreateBackgroundTask (next_task __init__) "voip_pipeline_run"].
Proof.
  apply (@burst_starts_one_run Demo.quiet [Demo.loud; Demo.loud] __init__).
  reflexivity.
Defined.

(** *** Task ids *)

Lemma task_state_in (ts : list (TaskId * TaskState)) (id : TaskId)
    (st : TaskState) :
  task_state ts id = Some st -> In (id, st) ts.
Proof.
  induction ts as [| [i o] ts IH]; intros H; [discriminate |].
  cbn [task_state] in H. destruct (Nat.eqb_spec i id) as [-> | _].
  - injection H as ->. now left.
  - right. now apply IH.
Qed.

Lemma in_task_update (ts : list (TaskId * TaskState)) (id : TaskId)
    (st : TaskState) (x : TaskId * TaskState) :
  In x (task_update ts id st) -> x = (id, st) \/ In x ts.
Proof.
  induction ts as [| [i o] ts IH]; intros H; [now right |].
  cbn [task_update] in H. destruct (Nat.eqb_spec i id) as [-> | _].
  - destruct H as [<- | H]; [now left | right; now right].
  - destruct H as [<- | H]; [right; now left |].
    destruct (IH H) as [-> | Hin]; [now left | right; now right].
Qed.

Lemma in_task_remove (ts : list (TaskId * TaskState)) (id : TaskId)
    (x : TaskId * TaskState) :
  In x (task_remove ts id) -> In x ts.
Proof.
  induction ts as [| [i o] ts IH]; intros H; [exact H |].
  cbn [task_remove] in H. destruct (Nat.eqb i id).
  - now right.
  - destruct H as [<- | H]; [now left | right; now apply IH].
Qed.

(** A task appended under an id that no older task has is the one found,
    updated and removed under that id. *)
Lemma newest_task (ts : list (TaskId * TaskState)) (n : TaskId)
    (st st' : TaskState) :
  (forall id old, In (id, old) ts -> id < n) ->
  task_state (ts ++ [(n, st)]) n = Some st
  /\ task_update (ts ++ [(n, st)]) n st' = ts ++ [(n, st')]
  /\ task_remove (ts ++ [(n, st)]) n = ts.
Proof.
  induction ts as [| [i o] ts IH]; intros Hlt; cbn.
  - rewrite Nat.eqb_refl. now repeat split.
  - assert (Hi : i < n) by (apply (Hlt i o); now left).
    destruct (Nat.eqb_spec i n) as [-> | _]; [lia |].
    destruct IH as (H1 & H2 & H3).
    { intros id old Hin. apply (Hlt id old). now right. }
    rewrite H1, H2, H3. now repeat split.
Qed.

Lemma fire_keeps_ids (s : Step) (w w' : World) :
  ids_below_next w -> fire s w = Some w' -> ids_below_next w'.
Proof.
  unfold ids_below_next. intros Hinv Hfire.
  assert (Hnew : forall st' i st,
             In (i, st) (tasks w ++ [(next_task w, st')]) ->
             i < S (next_task w)).
  { intros st' i st Hin. apply in_app_or in Hin as [Hin | [[= <- _] | []]];
      [apply Hinv in Hin |]; lia. }
  destruct s; cbn [fire] in Hfire.
  - injection Hfire as <-. exact Hinv.
  - injection Hfire as <-. exact Hinv.
  - injection Hfire as <-. rewrite on_chunk_effect. cbn [snd].
    destruct (_pipeline_task w); [exact Hinv |]. cbn. apply Hnew.
  - destruct (task_state (tasks w) id) as [[] |] eqn:Hfind; try discriminate.
    injection Hfire as <-. cbn. intros i st Hin.
    apply in_task_update in Hin as [[= -> _] | Hin]; [| now apply Hinv in Hin].
    exact (Hinv _ _ (task_state_in _ _ Hfind)).
  - destruct (awaiting_run w); [| discriminate].
    revert Hfire. handler. destruct (_audio_queue w); [discriminate |].
    intros [= <-]. exact Hinv.
  - destruct (awaiting_run w); [| discriminate].
    injection Hfire as <-. rewrite stream_leave_effect.
    destruct segmented as [[] | []]; cbn; try exact Hinv.
    destruct (transport w); exact Hinv.
  - injection Hfire as <-.
    destruct (callback_cases event w) as [(m & _ & ->) | (_ & [-> | (c & ->)])];
      [cbn; apply Hnew | exact Hinv | exact Hinv].
  - destruct (task_state (tasks w) id) as [[] |] eqn:Hfind; try discriminate.
    injection Hfire as <-. rewrite run_leave_effect.
    assert (Hrem : forall i st, In (i, st) (task_remove (tasks w) id) ->
                                i < next_task w).
    { intros i st Hin. apply in_task_remove in Hin. now apply Hinv in Hin. }
    destruct awaited as [[] | []]; cbn; try exact Hrem.
    destruct (transport w); exact Hrem.
  - destruct (task_state (tasks w) id) as [[] |] eqn:Hfind; try discriminate.
    revert Hfire. handler. destruct (transport w); intros [= <-]; cbn;
      intros i st Hin.
    + apply in_task_update in Hin as [[= -> _] | Hin];
        [| now apply Hinv in Hin].
      exact (Hinv _ _ (task_state_in _ _ Hfind)).
    + apply in_task_remove in Hin. now apply Hinv in Hin.
  - destruct (task_state (tasks w) id) as [[] |] eqn:Hfind; try discriminate.
    injection Hfire as <-. handler.
    destruct resolved as [[ext audio] |]; cbn; intros i st Hin;
      apply in_task_remove in Hin; now apply Hinv in Hin.
Qed.

Lemma reachable_ids (steps : list Step) (w : World) :
  run steps __init__ = Some w -> ids_below_next w.
Proof.
  revert steps w. apply (reach_ind (fun _ w => ids_below_next w)).
  - intros id st [].
  - intros steps w s w' _ Hinv Hfire. exact (fire_keeps_ids s Hinv Hfire).
Qed.



(** X10: from a state that a call can reach, a TTS_END event with a media
    id, followed by the sender task it schedules running to its end, does
    the following.  With the transport open the sender asks for the audio
    of that media id and sends what it gets as 16000 Hz, width 2, one
    channel; with the transport closed it asks for nothing and sends
    nothing.  Either way the task is gone afterwards. *)
Theorem answer_cycle
    (steps : list Step) (w : World) (event : PipelineEvent) (m : Value)
    (extension : string) (audio_bytes : bytes) :
  run steps __init__ = Some w ->
  tts_media_id event = Some m ->
  exists w',
    run (Event event :: SendEnters (next_task w)
         :: match transport w with
            | Some _ =>
                [SendResumes (next_task w) (Ok (extension, audio_bytes))]
            | None => []
            end) w = Some w'
    /\ tasks w' = tasks w
    /\ actions w'
       = actions w
         ++ CreateBackgroundTask (next_task w) "voip_pipeline_tts"
            :: match transport w with
               | Some _ => [GetMediaSourceAudio m;
                            SendAudio audio_bytes 16000 2 1]
               | None => []
               end.
Proof.
  intros Hrun Hmedia.
  pose proof (reachable_ids steps Hrun) as Hids.
  destruct (newest_task (tasks w) (SendScheduled m) (SendAwaitsMedia m) Hids)
    as (Hfind & Hupd & Hrem).
  destruct (newest_task (tasks w) (SendAwaitsMedia m) (SendAwaitsMedia m) Hids)
    as (Hfind' & _ & Hrem').
  destruct (callback_cases event w) as [(m' & Hm' & Hcb) | (Hnone & _)];
    [| congruence].
  assert (m' = m) as -> by congruence.
  cbn [run fire]. rewrite Hcb. cbn [tasks record set_next_task set_tasks].
  rewrite Hfind. unfold suspend, finish. handler.
  cbn -[task_state task_update task_remove].
  destruct (transport w); cbn -[task_state task_update task_remove].
  - rewrite Hupd, Hfind'. eexists. split; [reflexivity |].
    unfold finish. cbn -[task_remove]. rewrite Hrem', <- !app_assoc.
    now split.
  - eexists. split; [reflexivity |].
    unfold finish. cbn -[task_remove]. rewrite Hrem. now split.
Qed.

Lemma announced_media_app (steps more : list Step) :
  announced_media (steps ++ more)
  = announced_media steps ++ announced_media more.
Proof.
  induction steps as [| [] steps IH]; cbn; rewrite ?IH; try reflexivity.
  now destruct (tts_media_id event).
Qed.

Lemma media_requested_app (acts more : list Action) :
  media_requested (acts ++ more)
  = media_requested acts ++ media_requested more.
Proof.
  induction acts as [| [] acts IH]; cbn; rewrite ?IH; reflexivity.
Qed.

Lemma fire_media (steps : list Step) (s : Step) (w w' : World) :
  media_were_announced steps w -> fire s w = Some w' ->
  media_were_announced (steps ++ [s]) w'.
Proof.
  unfold media_were_announced. rewrite announced_media_app.
  intros [Htasks Hacts] Hfire.
  assert (Hsame : forall w1,
             (forall x, In x (tasks w1) ->
                        In x (tasks w) \/ media_of (snd x) = None) ->
             media_requested (actions w1) = media_requested (actions w) ->
             (forall id st m,
                In (id, st) (tasks w1) -> media_of st = Some m ->
                In m (announced_media steps ++ announced_media [s]))
             /\ (forall m,
                   In m (media_requested (actions w1)) ->
                   In m (announced_media steps ++ announced_media [s]))).
  { intros w1 Ht Ha. split.
    - intros id st m Hin Hm. apply in_or_app. left.
      destruct (Ht _ Hin) as [Hold | Hnone]; [| cbn in Hnone; congruence].
      exact (Htasks id st m Hold Hm).
    - intros m Hin. apply in_or_app. left. rewrite Ha in Hin. now apply Hacts. }
  assert (Hrec : forall acts a,
             media_requested [a] = [] ->
             media_requested (acts ++ [a]) = media_requested acts).
  { intros acts a Ha. now rewrite media_requested_app, Ha, app_nil_r. }
  destruct s; cbn [fire] in Hfire.
  - injection Hfire as <-. apply Hsame; [now left | reflexivity].
  - injection Hfire as <-. apply Hsame; [now left | reflexivity].
  - injection Hfire as <-. rewrite on_chunk_effect. cbn [snd].
    destruct (_pipeline_task w); (apply Hsame; cbn; [| now rewrite ?Hrec]).
    + now left.
    + intros x Hin. apply in_app_or in Hin as [Hin | [<- | []]];
        [now left | now right].
  - destruct (task_state (tasks w) id) as [[] |] eqn:Hfind; try discriminate.
    injection Hfire as <-. apply Hsame; cbn; [| now rewrite Hrec].
    intros x Hin. apply in_task_update in Hin as [-> | Hin];
      [now right | now left].
  - destruct (awaiting_run w); [| discriminate].
    revert Hfire. handler. destruct (_audio_queue w); [discriminate |].
    intros [= <-]. apply Hsame; [now left | reflexivity].
  - destruct (awaiting_run w); [| discriminate].
    injection Hfire as <-. rewrite stream_leave_effect.
    destruct segmented as [[] | []]; cbn [snd];
      try (apply Hsame; [now left | reflexivity]).
    destruct (transport w); (apply Hsame; cbn; [now left | now rewrite ?Hrec]).
  - injection Hfire as <-.
    destruct (callback_cases event w)
      as [(m & Hm & ->) | (Hnone & [-> | (c & ->)])].
    + cbn [announced_media]. rewrite Hm. cbn. split.
      * intros id st m' Hin Hm'. apply in_or_app.
        apply in_app_or in Hin as [Hin | [[= <- <-] | []]].
        -- left. exact (Htasks id st m' Hin Hm').
        -- right. cbn in Hm'. injection Hm' as <-. now left.
      * intros m' Hin. apply in_or_app. left.
        rewrite Hrec in Hin by reflexivity. now apply Hacts.
    + apply Hsame; [now left | reflexivity].
    + apply Hsame; [now left | reflexivity].
  - destruct (task_state (tasks w) id) as [[] |] eqn:Hfind; try discriminate.
    injection Hfire as <-. rewrite run_leave_effect.
    assert (Hrem : forall x, In x (task_remove (tasks w) id) ->
                             In x (tasks w) \/ media_of (snd x) = None).
    { intros x Hin. left. exact (in_task_remove _ _ _ Hin). }
    destruct awaited as [[] | []]; cbn [snd];
      try (apply Hsame; [exact Hrem | reflexivity]).
    destruct (transport w); (apply Hsame; cbn; [exact Hrem | now rewrite ?Hrec]).
  - destruct (task_state (tasks w) id) as [[] |] eqn:Hfind; try discriminate.
    apply task_state_in in Hfind.
    revert Hfire. handler. destruct (transport w); intros [= <-].
    + cbn. split.
      * intros i st m Hin Hm. apply in_or_app. left.
        apply in_task_update in Hin as [[= -> ->] | Hin].
        -- cbn in Hm. injection Hm as <-.
           exact (Htasks id (SendScheduled media_id) media_id Hfind eq_refl).
        -- exact (Htasks i st m Hin Hm).
      * intros m Hin. apply in_or_app. left.
        rewrite media_requested_app in Hin. cbn in Hin.
        apply in_app_or in Hin as [Hin | [<- | []]]; [now apply Hacts |].
        exact (Htasks id (SendScheduled media_id) media_id Hfind eq_refl).
    + apply Hsame; cbn; [| reflexivity].
      intros x Hin. left. exact (in_task_remove _ _ _ Hin).
  - destruct (task_state (tasks w) id) as [[] |] eqn:Hfind; try discriminate.
    injection Hfire as <-. handler.
    destruct resolved as [[ext audio] |]; cbn [snd];
      (apply Hsame; cbn; [| now rewrite ?Hrec]);
      intros x Hin; left; exact (in_task_remove _ _ _ Hin).
Qed.

(** X11: in every state a call can reach, audio was asked for only for
    media ids that a TTS_END event had brought before, and the same holds
    for the media id of every sender task that is still waiting. *)
Theorem media_requests_were_announced (steps : list Step) (w : World) :
  run steps __init__ = Some w ->
  (forall m,
     In m (media_requested (actions w)) -> In m (announced_media steps))
  /\ (forall id st m,
        In (id, st) (tasks w) -> media_of st = Some m ->
        In m (announced_media steps)).
Proof.
  intros Hrun.
  assert (H : media_were_announced steps w).
  { revert steps w Hrun. apply reach_ind.
    - split; [intros id st m [] | intros m []].
    - intros steps w s w' _ Hinv Hfire. exact (fire_media s Hinv Hfire). }
  destruct H as [Ht Ha]. now split.
Qed.

Section WithSegmenter.

Context {VAD : VoiceCommandSegmenter}.


End WithSegmenter.


Lemma answer_cycle_witness :
  exists w',
    run (Event (tts_end "media-2") :: SendEnters (next_task (after Demo.served))
         :: match transport (after Demo.served) with
            | Some _ =>
                [SendResumes (next_task (after Demo.served))
                   (Ok ("raw"%string, Demo.loud))]
            | None => []
            end) (after Demo.served) = Some w'
    /\ tasks w' = tasks (after Demo.served)
    /\ actions w'
       = actions (after Demo.served)
         ++ CreateBackgroundTask (next_task (after Demo.served))
              "voip_pipeline_tts"
            :: match transport (after Demo.served) with
               | Some _ => [GetMediaSourceAudio (VStr "media-2");
                            SendAudio Demo.loud 16000 2 1]
               | None => []
               end.
Proof.
  apply (@answer_cycle Demo.served (after Demo.served) (tts_end "media-2"));
    vm_compute; reflexivity.
Defined.

Lemma media_requests_were_announced_witness :
  (forall m,
     In m (media_requested (actions (after Demo.served))) ->
     In m (announced_media Demo.served))
  /\ (forall id st m,
        In (id, st) (tasks (after Demo.served)) -> media_of st = Some m ->
        In m (announced_media Demo.served)).
Proof.
  apply (@media_requests_were_announced Demo.served (after Demo.served)).
  vm_compute. reflexivity.
Defined.

End SessionMore.
